(** * tawheedvlp: catalog store, thumbnail pipeline and playback controller

  A shallow embedding of [src/store.ts] (the zustand store), of
  [src/utils/helpers.ts] ([generateThumbnail]), of
  [src/components/VideoPlayer.tsx] (the bind effect, the keyboard handler
  and the tap handler) and of [src/components/Uploader.tsx]
  ([handleLocalUpload]), with the properties the specification states
  about them.

  Conventions.
  - A JavaScript [number] is an IEEE 754 binary64 value: Rocq's primitive
    [float].  Values returned by [Date.now()] are integral milliseconds
    and are kept in [Z].
  - An optional field ([thumbnail?: string]) is an [option]; [null] and
    [undefined] are [None].
  - Whatever the code reads from its host ([Date.now()],
    [crypto.randomUUID()], [URL.createObjectURL]) is read from an explicit
    [World] that is threaded through the code in a state monad. *)

From Stdlib Require Import ZArith Floats Ascii.
From stdpp Require Import ssreflect base tactics decidable option list strings
  sorting.

#[local] Set Warnings "-inexact-float,-register-all".
#[local] Open Scope string_scope.
#[local] Open Scope list_scope.
#[local] Open Scope nat_scope.

(** ** JavaScript values *)

Module JS.

(** [Math.min] and [Math.max] on two arguments: NaN if either is NaN, and
    [-0] is smaller than [+0].  Two arguments that compare equal are the
    same number unless both are zeros. *)
Definition Math_min (a b : float) : float :=
  if (is_nan a || is_nan b)%bool then nan
  else if (a <? b)%float then a
  else if (b <? a)%float then b
  else if (is_zero a && negb (get_sign a))%bool then b else a.

Definition Math_max (a b : float) : float :=
  if (is_nan a || is_nan b)%bool then nan
  else if (b <? a)%float then a
  else if (a <? b)%float then b
  else if (is_zero a && get_sign a)%bool then b else a.


(** Truthiness of an optional number: [undefined], [0], [-0] and NaN are
    falsy. *)
Definition truthy (x : option float) : bool :=
  match x with
  | None => false
  | Some n => negb (is_zero n || is_nan n)
  end.

(** [s.toLowerCase()] on ASCII letters. *)
Definition lower (c : ascii) : ascii :=
  let n := Ascii.N_of_ascii c in
  if ((65 <=? n) && (n <=? 90))%N then Ascii.ascii_of_N (n + 32) else c.

Fixpoint toLowerCase (s : string) : string :=
  match s with
  | EmptyString => EmptyString
  | String c r => String (lower c) (toLowerCase r)
  end.

(** [s.split(sep)] for a one-character separator: never empty. *)
Fixpoint split (sep : ascii) (s : string) : list string :=
  match s with
  | EmptyString => [""]
  | String c r =>
      if decide (c = sep) then "" :: split sep r
      else match split sep r with
           | h :: t => String c h :: t
           | [] => [String c ""]
           end
  end.

(** The state of a promise. *)
Inductive Promise (R : Type) : Type :=
  | pending
  | fulfilled (r : R)
  | rejected (reason : string).
Arguments pending {R}.
Arguments fulfilled {R} r.
Arguments rejected {R} reason.

(** [resolve(r)]: only the first settlement of a promise counts. *)
Definition resolve {R} (r : R) (p : Promise R) : Promise R :=
  match p with
  | pending => fulfilled r
  | _ => p
  end.

End JS.
Export JS.

(** ** The host: clock, identifiers, object URLs *)

Module Host.

(** The readings the host will hand out, and how many of each were taken;
    [secure] tells whether [crypto.randomUUID] exists (secure contexts
    only: the call throws a TypeError elsewhere). *)
Record World := {
  clock : nat → Z;            (* the n-th value of Date.now() *)
  ticks : nat;
  secure : bool;
  uuid : nat → string;        (* the n-th value of crypto.randomUUID() *)
  uuids : nat;
  objectURL : nat → string;   (* the n-th value of URL.createObjectURL() *)
  blobs : nat;
  revoked : list string       (* the URLs given to URL.revokeObjectURL() *)
}.

Definition M (A : Type) : Type := World → A * World.

#[export] Instance M_ret : MRet M := λ A x w, (x, w).
#[export] Instance M_bind : MBind M :=
  λ A B f m w, let '(x, w') := m w in f x w'.

Definition Date_now : M Z := λ w,
  (clock w (ticks w),
   {| clock := clock w; ticks := S (ticks w); secure := secure w;
      uuid := uuid w; uuids := uuids w; objectURL := objectURL w;
      blobs := blobs w; revoked := revoked w |}).

(** [None] stands for the TypeError of a host without [randomUUID]. *)
Definition crypto_randomUUID : M (option string) := λ w,
  if secure w then
    (Some (uuid w (uuids w)),
     {| clock := clock w; ticks := ticks w; secure := secure w;
        uuid := uuid w; uuids := S (uuids w); objectURL := objectURL w;
        blobs := blobs w; revoked := revoked w |})
  else (None, w).

Definition URL_createObjectURL : M string := λ w,
  (objectURL w (blobs w),
   {| clock := clock w; ticks := ticks w; secure := secure w;
      uuid := uuid w; uuids := uuids w; objectURL := objectURL w;
      blobs := S (blobs w); revoked := revoked w |}).

Definition URL_revokeObjectURL (u : string) : M unit := λ w,
  (tt,
   {| clock := clock w; ticks := ticks w; secure := secure w;
      uuid := uuid w; uuids := uuids w; objectURL := objectURL w;
      blobs := blobs w; revoked := u :: revoked w |}).

(** [Array.prototype.map] with a callback that reads the host. *)
Fixpoint mapM {A B} (f : A → M B) (l : list A) : M (list B) :=
  match l with
  | [] => mret []
  | x :: l' => y ← f x; k ← mapM f l'; mret (y :: k)
  end.

End Host.
Export Host.

(** ** [src/types.ts] *)

Module Types.

Variant VideoSourceType := local.

Record VideoMetadata := {
  duration : float;
  width : float;
  height : float;
  format : option string;
  size : option float
}.

Record VideoItem := {
  id : string;
  title : string;
  source : string;
  type : VideoSourceType;
  thumbnail : option string;
  subtitleUrl : option string;
  metadata : option VideoMetadata;
  addedAt : Z;
  lastPlayedAt : option Z;
  progress : option float;
  favorite : option bool
}.

Variant Quality := auto | q1080p | q720p | q480p.

Record PlayerSettings := {
  volume : float;
  playbackRate : float;
  isMuted : bool;
  isTheaterMode : bool;
  quality : Quality
}.

(** [Partial<PlayerSettings>]: every field may be missing. *)
Record PartialSettings := {
  volume' : option float;
  playbackRate' : option float;
  isMuted' : option bool;
  isTheaterMode' : option bool;
  quality' : option Quality
}.

Definition no_settings : PartialSettings :=
  {| volume' := None; playbackRate' := None; isMuted' := None;
     isTheaterMode' := None; quality' := None |}.

End Types.
Export Types.

(** ** [src/store.ts] *)

Module Store.

Record VideoStore := {
  videos : list VideoItem;
  currentVideoId : option string;
  settings : PlayerSettings
}.

Definition initial : VideoStore :=
  {| videos := [];
     currentVideoId := None;
     settings := {| volume := 0.8; playbackRate := 1; isMuted := false;
                    isTheaterMode := false; quality := auto |} |}.

(** [set(partial)] of zustand merges the returned fields into the state;
    the three setters below are the three shapes the actions return. *)
Definition set_videos (vs : list VideoItem) (st : VideoStore) : VideoStore :=
  {| videos := vs; currentVideoId := currentVideoId st;
     settings := settings st |}.

Definition set_currentVideoId (c : option string) (st : VideoStore)
  : VideoStore :=
  {| videos := videos st; currentVideoId := c; settings := settings st |}.

Definition set_settings (s : PlayerSettings) (st : VideoStore) : VideoStore :=
  {| videos := videos st; currentVideoId := currentVideoId st;
     settings := s |}.

(** [[video, ...state.videos.filter(v => v.id !== video.id)].slice(0, 50)] *)
Definition addVideo (video : VideoItem) (st : VideoStore) : VideoStore :=
  set_videos
    (take 50 (video :: filter (λ v, id v ≠ id video) (videos st))) st.

Definition removeVideo (i : string) (st : VideoStore) : VideoStore :=
  {| videos := filter (λ v, id v ≠ i) (videos st);
     currentVideoId :=
       if decide (currentVideoId st = Some i) then None
       else currentVideoId st;
     settings := settings st |}.

Definition setCurrentVideo (i : option string) (st : VideoStore)
  : VideoStore :=
  set_currentVideoId i st.

(** [{ ...v, progress, lastPlayedAt: Date.now() }] *)
Definition with_progress (p : float) (t : Z) (v : VideoItem) : VideoItem :=
  {| id := id v; title := title v; source := source v; type := type v;
     thumbnail := thumbnail v; subtitleUrl := subtitleUrl v;
     metadata := metadata v; addedAt := addedAt v;
     lastPlayedAt := Some t; progress := Some p; favorite := favorite v |}.

(** [v => v.id === id ? { ...v, progress, lastPlayedAt: Date.now() } : v] *)
Definition stamp (i : string) (p : float) (v : VideoItem) : M VideoItem :=
  if decide (id v = i) then t ← Date_now; mret (with_progress p t v)
  else mret v.

Definition updateVideoProgress (i : string) (p : float) (st : VideoStore)
  : M VideoStore :=
  vs ← mapM (stamp i p) (videos st);
  mret (set_videos vs st).

(** [!v.favorite]: a missing flag is falsy. *)
Definition with_favorite_flipped (v : VideoItem) : VideoItem :=
  {| id := id v; title := title v; source := source v; type := type v;
     thumbnail := thumbnail v; subtitleUrl := subtitleUrl v;
     metadata := metadata v; addedAt := addedAt v;
     lastPlayedAt := lastPlayedAt v; progress := progress v;
     favorite := Some (negb (default false (favorite v))) |}.

Definition toggleFavorite (i : string) (st : VideoStore) : VideoStore :=
  set_videos
    ((λ v, if decide (id v = i) then with_favorite_flipped v else v)
       <$> videos st) st.

(** [{ ...state.settings, ...newSettings }] *)
Definition merge_settings (s : PlayerSettings) (n : PartialSettings)
  : PlayerSettings :=
  {| volume := default (volume s) (volume' n);
     playbackRate := default (playbackRate s) (playbackRate' n);
     isMuted := default (isMuted s) (isMuted' n);
     isTheaterMode := default (isTheaterMode s) (isTheaterMode' n);
     quality := default (quality s) (quality' n) |}.

Definition updateSettings (n : PartialSettings) (st : VideoStore)
  : VideoStore :=
  set_settings (merge_settings (settings st) n) st.

Definition clearHistory (st : VideoStore) : VideoStore :=
  {| videos := []; currentVideoId := None; settings := settings st |}.

(** The record [persist] writes to durable storage: [partialize]. *)
Record Snapshot := {
  snap_videos : list VideoItem;
  snap_settings : PlayerSettings
}.

Definition with_source (s : string) (v : VideoItem) : VideoItem :=
  {| id := id v; title := title v; source := s; type := type v;
     thumbnail := thumbnail v; subtitleUrl := subtitleUrl v;
     metadata := metadata v; addedAt := addedAt v;
     lastPlayedAt := lastPlayedAt v; progress := progress v;
     favorite := favorite v |}.

Definition partialize (st : VideoStore) : Snapshot :=
  {| snap_videos := with_source "" <$> videos st;
     snap_settings := settings st |}.

(** A snapshot none of whose items has a source locator. *)
Definition blank (sn : Snapshot) : Prop :=
  Forall (λ v, source v = "") (snap_videos sn).

(** The actions of the store, and the [persist] middleware: every [set]
    is followed by a write of [partialize(state)] to the storage key. *)
Inductive Action :=
  | AddVideo (video : VideoItem)
  | RemoveVideo (i : string)
  | SetCurrentVideo (i : option string)
  | UpdateVideoProgress (i : string) (p : float)
  | ToggleFavorite (i : string)
  | UpdateSettings (n : PartialSettings)
  | ClearHistory.

Definition act (a : Action) (st : VideoStore) : M VideoStore :=
  match a with
  | AddVideo video => mret (addVideo video st)
  | RemoveVideo i => mret (removeVideo i st)
  | SetCurrentVideo i => mret (setCurrentVideo i st)
  | UpdateVideoProgress i p => updateVideoProgress i p st
  | ToggleFavorite i => mret (toggleFavorite i st)
  | UpdateSettings n => mret (updateSettings n st)
  | ClearHistory => mret (clearHistory st)
  end.

(** The store with the writes made to durable storage, latest first. *)
Definition persisted (a : Action) (s : VideoStore * list Snapshot)
  : M (VideoStore * list Snapshot) :=
  st ← act a s.1;
  mret (st, partialize st :: s.2).

Fixpoint run (l : list Action) (s : VideoStore * list Snapshot)
  : M (VideoStore * list Snapshot) :=
  match l with
  | [] => mret s
  | a :: l' => s' ← persisted a s; run l' s'
  end.

(** The catalog after a run of [addVideo] calls, oldest call first. *)
Definition addVideos (l : list VideoItem) (st : VideoStore) : VideoStore :=
  foldl (λ s v, addVideo v s) st l.

(** The ids of a catalog, front first. *)
Definition ids (vs : list VideoItem) : list string := id <$> vs.

(** Keep the first entry of every identifier. *)
Fixpoint first_of_each (vs : list VideoItem) : list VideoItem :=
  match vs with
  | [] => []
  | v :: vs' => v :: filter (λ x, id x ≠ id v) (first_of_each vs')
  end.

End Store.
Export Store.

(** ** [src/utils/helpers.ts]: [generateThumbnail] *)

Module Helpers.

(** What the host's decoder finds in a file: nothing it can decode, or a
    media resource with its intrinsic metadata, the positions it can seek
    to, and what a canvas of a given size encodes after the frame at a
    position was drawn on it. *)
Inductive Media :=
  | undecodable
  | decodable (duration videoWidth videoHeight : float)
              (seekable : float → bool)
              (encoded : float → float → float → string).

Record File := {
  name : string;
  size : float;
  type : string;
  media : Media
}.

(** The off-screen [<video>] element of one extraction. *)
Module Element.
Record t := {
  preload : string;
  src : string;
  currentTime : float;
  seeking : option float;     (* the position of a seek in flight *)
  duration : float;
  videoWidth : float;
  videoHeight : float;
  picture : float → float → string  (* canvas.toDataURL() after drawImage *)
}.
End Element.

Record Thumbnail := {
  thumbnail : string;
  duration : float;
  width : float;
  height : float
}.

Definition degraded : Thumbnail :=
  {| thumbnail := ""; duration := 0; width := 0; height := 0 |}.

Record Session := {
  video : Element.t;
  promise : Promise Thumbnail
}.

(** The events the element delivers to its three handler slots; each
    carries what the host has changed on the element when it fires. *)
Inductive Event :=
  | loadedmetadata (duration videoWidth videoHeight : float)
  | seeked (picture : float → float → string)
  | error.

(** The events that end a load or a seek. *)
Definition settles (e : Event) : Prop :=
  match e with
  | loadedmetadata _ _ _ => False
  | seeked _ | error => True
  end.

(** [video.currentTime = Math.min(1, video.duration * 0.1)].  At
    [loadedmetadata] the duration is known, so the assigned position is a
    finite number and the assignment starts a seek. *)
Definition onloadedmetadata (s : Session) : M Session :=
  let v := video s in
  let t := Math_min 1 (Element.duration v * 0.1)%float in
  mret {| video := {| Element.preload := Element.preload v;
                      Element.src := Element.src v;
                      Element.currentTime := t;
                      Element.seeking := Some t;
                      Element.duration := Element.duration v;
                      Element.videoWidth := Element.videoWidth v;
                      Element.videoHeight := Element.videoHeight v;
                      Element.picture := Element.picture v |};
          promise := promise s |}.

Definition onseeked (s : Session) : M Session :=
  let v := video s in
  let aspect := (Element.videoWidth v / Element.videoHeight v)%float in
  let canvas_width := 640%float in
  let canvas_height := (640 / aspect)%float in
  let thumbnail := Element.picture v canvas_width canvas_height in
  let p := resolve {| thumbnail := thumbnail;
                      duration := Element.duration v;
                      width := Element.videoWidth v;
                      height := Element.videoHeight v |} (promise s) in
  _ ← URL_revokeObjectURL (Element.src v);
  mret {| video := v; promise := p |}.

Definition onerror (s : Session) : M Session :=
  _ ← URL_revokeObjectURL (Element.src (video s));
  mret {| video := video s; promise := resolve degraded (promise s) |}.

(** The host updates the element, then calls the handler of the event. *)
Definition dispatch (e : Event) (s : Session) : M Session :=
  let v := video s in
  match e with
  | loadedmetadata d w h =>
      onloadedmetadata
        {| video := {| Element.preload := Element.preload v;
                       Element.src := Element.src v;
                       Element.currentTime := Element.currentTime v;
                       Element.seeking := Element.seeking v;
                       Element.duration := d;
                       Element.videoWidth := w;
                       Element.videoHeight := h;
                       Element.picture := Element.picture v |};
           promise := promise s |}
  | seeked pic =>
      onseeked
        {| video := {| Element.preload := Element.preload v;
                       Element.src := Element.src v;
                       Element.currentTime := Element.currentTime v;
                       Element.seeking := None;
                       Element.duration := Element.duration v;
                       Element.videoWidth := Element.videoWidth v;
                       Element.videoHeight := Element.videoHeight v;
                       Element.picture := pic |};
           promise := promise s |}
  | error => onerror s
  end.

Fixpoint deliver (es : list Event) (s : Session) : M Session :=
  match es with
  | [] => mret s
  | e :: es' => s' ← dispatch e s; deliver es' s'
  end.

(** The executor of the promise, up to the point where it returns: a fresh
    element, its source set, the three handlers installed. *)
Definition executor (file : File) : M Session :=
  u ← URL_createObjectURL;
  mret {| video := {| Element.preload := "metadata";
                      Element.src := u;
                      Element.currentTime := 0;
                      Element.seeking := None;
                      Element.duration := nan;
                      Element.videoWidth := 0;
                      Element.videoHeight := 0;
                      Element.picture := λ _ _, "data:," |};
          promise := pending |}.

(** The media element at work on [file]: the load ends in [error] or in
    [loadedmetadata]; a seek the handler started ends in [seeked] or in
    [error]; without a seek nothing more happens. *)
Definition decode (file : File) (s : Session) : M Session :=
  match media file with
  | undecodable => dispatch error s
  | decodable d w h seekable encoded =>
      s1 ← dispatch (loadedmetadata d w h) s;
      match Element.seeking (video s1) with
      | Some t =>
          if seekable t then dispatch (seeked (encoded t)) s1
          else dispatch error s1
      | None => mret s1
      end
  end.

(** The promise of [generateThumbnail(file)] once the element is done. *)
Definition generateThumbnail (file : File) : M (Promise Thumbnail) :=
  s ← executor file;
  s' ← decode file s;
  mret (promise s').

End Helpers.

(** ** [src/components/Uploader.tsx]: [handleLocalUpload] *)

Module Uploader.

Record State := {
  isLoading : bool;
  store : VideoStore
}.

(** The object literal [newVideo]: [i], [src] and [now] are what
    [crypto.randomUUID()], [URL.createObjectURL(file)] and [Date.now()]
    returned. *)
Definition newVideo (file : Helpers.File) (t : Helpers.Thumbnail)
  (i src : string) (now : Z) : VideoItem :=
  {| id := i;
     title := default "" (head (split "."%char (Helpers.name file)));
     source := src;
     type := local;
     thumbnail := Some (Helpers.thumbnail t);
     subtitleUrl := None;
     metadata :=
       Some {| duration := Helpers.duration t;
               width := Helpers.width t;
               height := Helpers.height t;
               format := last (split "."%char (Helpers.name file));
               size := Some (Helpers.size file) |};
     addedAt := now;
     lastPlayedAt := None;
     progress := None;
     favorite := None |}.

(** The body of the [try] block for one file.  [n] is [files.length].
    A rejected promise and the TypeError of a missing [randomUUID] are
    caught and logged: the store is left as it is.  [None] is returned
    when the awaited promise never settles, so that the function never
    resumes. *)
Definition import (n : nat) (file : Helpers.File) (st : VideoStore)
  : M (option VideoStore) :=
  p ← Helpers.generateThumbnail file;
  match p with
  | pending => mret None
  | rejected _ => mret (Some st)
  | fulfilled t =>
      u ← crypto_randomUUID;
      match u with
      | None => mret (Some st)
      | Some i =>
          src ← URL_createObjectURL;
          now ← Date_now;
          let v := newVideo file t i src now in
          let st1 := addVideo v st in
          mret (Some (if decide (n = 1)
                      then setCurrentVideo (Some (id v)) st1
                      else st1))
      end
  end.

(** [for (const file of files) { try { ... } catch { ... } }]: the store
    reached, and whether the loop ran to its end. *)
Fixpoint for_of (n : nat) (files : list Helpers.File) (st : VideoStore)
  : M (VideoStore * bool) :=
  match files with
  | [] => mret (st, true)
  | file :: rest =>
      r ← import n file st;
      match r with
      | Some st' => for_of n rest st'
      | None => mret (st, false)
      end
  end.

(** [files] is [Array.from(e.target.files || [])].  When an awaited promise
    never settles the function stops there, with [isLoading] still set. *)
Definition handleLocalUpload (files : list Helpers.File) (s : State)
  : M State :=
  if decide (length files = 0) then mret s
  else
    '(st, completed) ← for_of (length files) files (store s);
    mret {| isLoading := negb completed; store := st |}.

End Uploader.

(** ** [src/components/VideoPlayer.tsx] *)

Module Player.

Definition PLAYBACK_SPEEDS : list float :=
  [0.25; 0.5; 0.75; 1; 1.25; 1.5; 1.75; 2; 2.5; 3]%float.

(** The range of the two numeric preferences: a volume in [0, 1] and a
    rate that is one of [PLAYBACK_SPEEDS]. *)
Definition in_unit (v : float) : bool := ((0 <=? v) && (v <=? 1))%float.

Definition is_speed (r : float) : bool :=
  existsb (λ speed, (r =? speed)%float) PLAYBACK_SPEEDS.

Definition valid (s : PlayerSettings) : bool :=
  in_unit (volume s) && is_speed (playbackRate s).

Variant EventName := timeupdate | loadedmetadata | error | play | pause.

#[export] Instance EventName_eq_dec : EqDecision EventName.
Proof. solve_decision. Defined.

(** The functions the bind effect creates on each run: the three named
    handlers, which close over the [video] prop of that run, and the two
    anonymous arrows [() => setIsPlaying(b)]. *)
Inductive Handler :=
  | handleTimeUpdate (video : VideoItem)
  | handleLoadedMetadata (video : VideoItem)
  | handleError
  | arrow_setIsPlaying (b : bool).

(** A function object: [fn] is its identity (the allocation it came from),
    which is what [removeEventListener] compares. *)
Record Listener := {
  fn : nat;
  body : Handler
}.

(** The [<video>] element behind [videoRef]. *)
Module Dom.
Record HTMLVideoElement := {
  src : string;
  currentTime : float;
  duration : float;
  paused : bool;
  playbackRate : float;
  volume : float;
  muted : bool;
  buffered : list (float * float);
  listeners : list (EventName * Listener)
}.
End Dom.

Definition with_listeners (ls : list (EventName * Listener))
  (el : Dom.HTMLVideoElement) : Dom.HTMLVideoElement :=
  {| Dom.src := Dom.src el; Dom.currentTime := Dom.currentTime el;
     Dom.duration := Dom.duration el; Dom.paused := Dom.paused el;
     Dom.playbackRate := Dom.playbackRate el; Dom.volume := Dom.volume el;
     Dom.muted := Dom.muted el; Dom.buffered := Dom.buffered el;
     Dom.listeners := ls |}.

(** [el.addEventListener(type, l)]: a listener already registered for the
    type (the same function object) is not registered twice. *)
Definition addEventListener (ty : EventName) (l : Listener)
  (el : Dom.HTMLVideoElement) : Dom.HTMLVideoElement :=
  if decide (Exists (λ r, r.1 = ty ∧ fn r.2 = fn l) (Dom.listeners el))
  then el
  else with_listeners (Dom.listeners el ++ [(ty, l)]) el.

Definition removeEventListener (ty : EventName) (l : Listener)
  (el : Dom.HTMLVideoElement) : Dom.HTMLVideoElement :=
  with_listeners
    (filter (λ r, ¬ (r.1 = ty ∧ fn r.2 = fn l)) (Dom.listeners el)) el.

(** Assigning [el.currentTime]: the element keeps the position inside the
    media resource. *)
Definition assign_currentTime (t : float) (el : Dom.HTMLVideoElement)
  : Dom.HTMLVideoElement :=
  let t' := if (t <? 0)%float then 0%float
            else if (Dom.duration el <? t)%float then Dom.duration el
            else t in
  {| Dom.src := Dom.src el; Dom.currentTime := t';
     Dom.duration := Dom.duration el; Dom.paused := Dom.paused el;
     Dom.playbackRate := Dom.playbackRate el; Dom.volume := Dom.volume el;
     Dom.muted := Dom.muted el; Dom.buffered := Dom.buffered el;
     Dom.listeners := Dom.listeners el |}.

Definition assign_paused (b : bool) (el : Dom.HTMLVideoElement)
  : Dom.HTMLVideoElement :=
  {| Dom.src := Dom.src el; Dom.currentTime := Dom.currentTime el;
     Dom.duration := Dom.duration el; Dom.paused := b;
     Dom.playbackRate := Dom.playbackRate el; Dom.volume := Dom.volume el;
     Dom.muted := Dom.muted el; Dom.buffered := Dom.buffered el;
     Dom.listeners := Dom.listeners el |}.

(** [el.playbackRate = ...; el.volume = ...; el.muted = ...] *)
Definition assign_settings (s : PlayerSettings) (el : Dom.HTMLVideoElement)
  : Dom.HTMLVideoElement :=
  {| Dom.src := Dom.src el; Dom.currentTime := Dom.currentTime el;
     Dom.duration := Dom.duration el; Dom.paused := Dom.paused el;
     Dom.playbackRate := Types.playbackRate s; Dom.volume := Types.volume s;
     Dom.muted := Types.isMuted s; Dom.buffered := Dom.buffered el;
     Dom.listeners := Dom.listeners el |}.

Definition assign_src (u : string) (el : Dom.HTMLVideoElement)
  : Dom.HTMLVideoElement :=
  {| Dom.src := u; Dom.currentTime := Dom.currentTime el;
     Dom.duration := Dom.duration el; Dom.paused := Dom.paused el;
     Dom.playbackRate := Dom.playbackRate el; Dom.volume := Dom.volume el;
     Dom.muted := Dom.muted el; Dom.buffered := Dom.buffered el;
     Dom.listeners := Dom.listeners el |}.

Variant Side := left | right.

(** The [useState] cells of the component. *)
Record UI := {
  isPlaying : bool;
  currentTime : float;
  duration : float;
  showControls : bool;
  buffered : float;
  isSpeedMenuOpen : bool;
  skipFeedback : option Side;
  loadError : bool;
  subtitleUrl : option string
}.

Definition setIsPlaying (b : bool) (u : UI) : UI :=
  {| isPlaying := b; currentTime := currentTime u; duration := duration u;
     showControls := showControls u; buffered := buffered u;
     isSpeedMenuOpen := isSpeedMenuOpen u; skipFeedback := skipFeedback u;
     loadError := loadError u; subtitleUrl := subtitleUrl u |}.

Definition setCurrentTime (t : float) (u : UI) : UI :=
  {| isPlaying := isPlaying u; currentTime := t; duration := duration u;
     showControls := showControls u; buffered := buffered u;
     isSpeedMenuOpen := isSpeedMenuOpen u; skipFeedback := skipFeedback u;
     loadError := loadError u; subtitleUrl := subtitleUrl u |}.

Definition setDuration (d : float) (u : UI) : UI :=
  {| isPlaying := isPlaying u; currentTime := currentTime u; duration := d;
     showControls := showControls u; buffered := buffered u;
     isSpeedMenuOpen := isSpeedMenuOpen u; skipFeedback := skipFeedback u;
     loadError := loadError u; subtitleUrl := subtitleUrl u |}.

Definition setShowControls (b : bool) (u : UI) : UI :=
  {| isPlaying := isPlaying u; currentTime := currentTime u;
     duration := duration u; showControls := b; buffered := buffered u;
     isSpeedMenuOpen := isSpeedMenuOpen u; skipFeedback := skipFeedback u;
     loadError := loadError u; subtitleUrl := subtitleUrl u |}.

Definition setBuffered (b : float) (u : UI) : UI :=
  {| isPlaying := isPlaying u; currentTime := currentTime u;
     duration := duration u; showControls := showControls u; buffered := b;
     isSpeedMenuOpen := isSpeedMenuOpen u; skipFeedback := skipFeedback u;
     loadError := loadError u; subtitleUrl := subtitleUrl u |}.

Definition setIsSpeedMenuOpen (b : bool) (u : UI) : UI :=
  {| isPlaying := isPlaying u; currentTime := currentTime u;
     duration := duration u; showControls := showControls u;
     buffered := buffered u; isSpeedMenuOpen := b;
     skipFeedback := skipFeedback u; loadError := loadError u;
     subtitleUrl := subtitleUrl u |}.

Definition setSkipFeedback (s : option Side) (u : UI) : UI :=
  {| isPlaying := isPlaying u; currentTime := currentTime u;
     duration := duration u; showControls := showControls u;
     buffered := buffered u; isSpeedMenuOpen := isSpeedMenuOpen u;
     skipFeedback := s; loadError := loadError u;
     subtitleUrl := subtitleUrl u |}.

Definition setLoadError (b : bool) (u : UI) : UI :=
  {| isPlaying := isPlaying u; currentTime := currentTime u;
     duration := duration u; showControls := showControls u;
     buffered := buffered u; isSpeedMenuOpen := isSpeedMenuOpen u;
     skipFeedback := skipFeedback u; loadError := b;
     subtitleUrl := subtitleUrl u |}.

(** What a pending [setTimeout] will run.  The arrow of [handleMouseMove]
    closes over the [isPlaying] of the render that scheduled it. *)
Variant Callback :=
  | hide_controls_if (isPlaying : bool)
  | clear_skipFeedback.

Record Timer := {
  timer : nat;          (* the id [setTimeout] returned *)
  remaining : Z;        (* milliseconds left *)
  callback : Callback
}.

(** The calls the component makes on host objects, oldest first. *)
Variant Call :=
  | video_play
  | video_pause
  | video_set_currentTime (t : float)
  | requestFullscreen
  | webkitRequestFullscreen
  | msRequestFullscreen
  | exitFullscreen
  | webkitExitFullscreen.

(** What the platform offers for fullscreen. *)
Record Document := {
  fullscreenElement : bool;
  has_requestFullscreen : bool;
  has_webkitRequestFullscreen : bool;
  has_msRequestFullscreen : bool;
  has_exitFullscreen : bool;
  has_webkitExitFullscreen : bool
}.

Record DOMRect := {
  rect_left : float;
  rect_width : float
}.

Record Tap := {
  time : Z;
  x : float
}.

(** What the cleanup of a bind effect closes over. *)
Record Cleanup := {
  bound_timeupdate : Listener;
  bound_loadedmetadata : Listener;
  bound_error : Listener
}.

(** The mounted component with the store it is subscribed to. *)
Record App := {
  store : VideoStore;
  ui : UI;
  videoRef : option Dom.HTMLVideoElement;
  containerRef : option DOMRect;
  controlsTimeoutRef : option nat;
  lastTapRef : option Tap;
  timers : list Timer;
  next_timer : nat;           (* ids start at 1: an id is truthy *)
  next_fn : nat;
  cleanup : option Cleanup;
  document : Document;
  calls : list Call
}.

Definition with_store (s : VideoStore) (a : App) : App :=
  {| store := s; ui := ui a; videoRef := videoRef a;
     containerRef := containerRef a;
     controlsTimeoutRef := controlsTimeoutRef a; lastTapRef := lastTapRef a;
     timers := timers a; next_timer := next_timer a; next_fn := next_fn a;
     cleanup := cleanup a; document := document a; calls := calls a |}.

Definition with_ui (u : UI) (a : App) : App :=
  {| store := store a; ui := u; videoRef := videoRef a;
     containerRef := containerRef a;
     controlsTimeoutRef := controlsTimeoutRef a; lastTapRef := lastTapRef a;
     timers := timers a; next_timer := next_timer a; next_fn := next_fn a;
     cleanup := cleanup a; document := document a; calls := calls a |}.

Definition with_video (el : Dom.HTMLVideoElement) (a : App) : App :=
  {| store := store a; ui := ui a; videoRef := Some el;
     containerRef := containerRef a;
     controlsTimeoutRef := controlsTimeoutRef a; lastTapRef := lastTapRef a;
     timers := timers a; next_timer := next_timer a; next_fn := next_fn a;
     cleanup := cleanup a; document := document a; calls := calls a |}.

Definition with_controlsTimeoutRef (r : option nat) (a : App) : App :=
  {| store := store a; ui := ui a; videoRef := videoRef a;
     containerRef := containerRef a;
     controlsTimeoutRef := r; lastTapRef := lastTapRef a;
     timers := timers a; next_timer := next_timer a; next_fn := next_fn a;
     cleanup := cleanup a; document := document a; calls := calls a |}.

Definition with_lastTapRef (r : option Tap) (a : App) : App :=
  {| store := store a; ui := ui a; videoRef := videoRef a;
     containerRef := containerRef a;
     controlsTimeoutRef := controlsTimeoutRef a; lastTapRef := r;
     timers := timers a; next_timer := next_timer a; next_fn := next_fn a;
     cleanup := cleanup a; document := document a; calls := calls a |}.

Definition with_timers (ts : list Timer) (n : nat) (a : App) : App :=
  {| store := store a; ui := ui a; videoRef := videoRef a;
     containerRef := containerRef a;
     controlsTimeoutRef := controlsTimeoutRef a; lastTapRef := lastTapRef a;
     timers := ts; next_timer := n; next_fn := next_fn a;
     cleanup := cleanup a; document := document a; calls := calls a |}.

Definition with_effect (n : nat) (c : option Cleanup) (a : App) : App :=
  {| store := store a; ui := ui a; videoRef := videoRef a;
     containerRef := containerRef a;
     controlsTimeoutRef := controlsTimeoutRef a; lastTapRef := lastTapRef a;
     timers := timers a; next_timer := next_timer a; next_fn := n;
     cleanup := c; document := document a; calls := calls a |}.

Definition call (c : Call) (a : App) : App :=
  {| store := store a; ui := ui a; videoRef := videoRef a;
     containerRef := containerRef a;
     controlsTimeoutRef := controlsTimeoutRef a; lastTapRef := lastTapRef a;
     timers := timers a; next_timer := next_timer a; next_fn := next_fn a;
     cleanup := cleanup a; document := document a;
     calls := calls a ++ [c] |}.

(** [setTimeout(cb, ms)] and [clearTimeout(id)] *)
Definition setTimeout (cb : Callback) (ms : Z) (a : App) : nat * App :=
  (next_timer a,
   with_timers
     (timers a ++ [{| timer := next_timer a; remaining := ms;
                      callback := cb |}])
     (S (next_timer a)) a).

Definition clearTimeout (i : nat) (a : App) : App :=
  with_timers (filter (λ t, timer t ≠ i) (timers a)) (next_timer a) a.

Definition run_callback (cb : Callback) (a : App) : App :=
  match cb with
  | hide_controls_if playing =>
      if playing then with_ui (setShowControls false (ui a)) a else a
  | clear_skipFeedback => with_ui (setSkipFeedback None (ui a)) a
  end.

(** [ms] milliseconds pass with no input: the timers that come due run,
    in the order they were scheduled. *)
Definition elapse (ms : Z) (a : App) : App :=
  let due := filter (λ t, (remaining t ≤ ms)%Z) (timers a) in
  let later :=
    (λ t, {| timer := timer t; remaining := (remaining t - ms)%Z;
             callback := callback t |})
      <$> filter (λ t, ¬ (remaining t ≤ ms)%Z) (timers a) in
  foldl (λ s t, run_callback (callback t) s)
        (with_timers later (next_timer a) a) due.

Definition handleMouseMove (a : App) : App :=
  let a1 := with_ui (setShowControls true (ui a)) a in
  let a2 := match controlsTimeoutRef a1 with
            | Some i => clearTimeout i a1
            | None => a1
            end in
  let '(i, a3) := setTimeout (hide_controls_if (isPlaying (ui a))) 3000 a2 in
  with_controlsTimeoutRef (Some i) a3.

(** [el.play()] and [el.pause()] flip [paused] at once; the [play] and
    [pause] events follow later, delivered by the host. *)
Definition togglePlay (a : App) : App :=
  match videoRef a with
  | Some el =>
      if Dom.paused el
      then call video_play (with_video (assign_paused false el) a)
      else call video_pause (with_video (assign_paused true el) a)
  | None => a
  end.

Definition toggleMute (a : App) : App :=
  with_store
    (updateSettings
       {| volume' := None; playbackRate' := None;
          isMuted' := Some (negb (isMuted (settings (store a))));
          isTheaterMode' := None; quality' := None |} (store a)) a.

Definition toggleFullscreen (a : App) : App :=
  match containerRef a with
  | None => a
  | Some _ =>
      let d := document a in
      if negb (fullscreenElement d) then
        if has_requestFullscreen d then call requestFullscreen a
        else if has_webkitRequestFullscreen d
             then call webkitRequestFullscreen a
        else if has_msRequestFullscreen d then call msRequestFullscreen a
        else a
      else
        if has_exitFullscreen d then call exitFullscreen a
        else if has_webkitExitFullscreen d then call webkitExitFullscreen a
        else a
  end.

Definition seek (amount : float) (a : App) : App :=
  match videoRef a with
  | Some el =>
      let t := (Dom.currentTime el + amount)%float in
      let a1 := call (video_set_currentTime t)
                     (with_video (assign_currentTime t el) a) in
      let a2 := with_ui
                  (setSkipFeedback
                     (Some (if (amount <? 0)%float then left else right))
                     (ui a1)) a1 in
      (setTimeout clear_skipFeedback 500 a2).2
  | None => a
  end.

(** The [keydown] listener.  [tag] is [document.activeElement?.tagName];
    the result tells whether [e.preventDefault()] was called. *)
Definition handleKeyDown (tag : option string) (code : string) (a : App)
  : App * bool :=
  if decide (default "" (toLowerCase <$> tag) ∈ ["input"; "textarea"])
  then (a, false)
  else if decide (code = "Space") then (togglePlay a, true)
  else if decide (code = "ArrowLeft") then (seek (-10) a, true)
  else if decide (code = "ArrowRight") then (seek 10 a, true)
  else if decide (code = "ArrowUp") then
    (with_store
       (updateSettings
          {| volume' :=
               Some (Math_min 1 (volume (settings (store a)) + 0.1)%float);
             playbackRate' := None; isMuted' := None;
             isTheaterMode' := None; quality' := None |} (store a)) a,
     true)
  else if decide (code = "ArrowDown") then
    (with_store
       (updateSettings
          {| volume' :=
               Some (Math_max 0 (volume (settings (store a)) - 0.1)%float);
             playbackRate' := None; isMuted' := None;
             isTheaterMode' := None; quality' := None |} (store a)) a,
     true)
  else if decide (code = "KeyF") then (toggleFullscreen a, true)
  else if decide (code = "KeyM") then (toggleMute a, true)
  else (a, false).

(** The volume slider ([value] is [parseFloat(e.target.value)]) and a
    button of the speed menu. *)
Definition onVolumeChange (value : float) (a : App) : App :=
  with_store
    (updateSettings
       {| volume' := Some value; playbackRate' := None; isMuted' := None;
          isTheaterMode' := None; quality' := None |} (store a)) a.

Definition onSpeedClick (speed : float) (a : App) : App :=
  let a1 :=
    with_store
      (updateSettings
         {| volume' := None; playbackRate' := Some speed; isMuted' := None;
            isTheaterMode' := None; quality' := None |} (store a)) a in
  with_ui (setIsSpeedMenuOpen false (ui a1)) a1.

(** The bind effect, [useEffect(..., [video.id, video.source])]: its body,
    which leaves a cleanup behind unless it returned early. *)
Definition bind (video : VideoItem) (a : App) : App :=
  match videoRef a with
  | None => with_effect (next_fn a) None a
  | Some videoEl =>
      if decide (source video = "") then with_effect (next_fn a) None a
      else
        let a1 := with_ui (setLoadError false (ui a)) a in
        let el1 := assign_settings (settings (store a))
                     (assign_src (source video) videoEl) in
        let n := next_fn a in
        let h_timeupdate := {| fn := n; body := handleTimeUpdate video |} in
        let h_loadedmetadata :=
          {| fn := n + 1; body := handleLoadedMetadata video |} in
        let h_error := {| fn := n + 2; body := handleError |} in
        let h_play := {| fn := n + 3; body := arrow_setIsPlaying true |} in
        let h_pause := {| fn := n + 4; body := arrow_setIsPlaying false |} in
        let el2 :=
          addEventListener pause h_pause
            (addEventListener play h_play
               (addEventListener error h_error
                  (addEventListener loadedmetadata h_loadedmetadata
                     (addEventListener timeupdate h_timeupdate el1)))) in
        with_effect (n + 5)
          (Some {| bound_timeupdate := h_timeupdate;
                   bound_loadedmetadata := h_loadedmetadata;
                   bound_error := h_error |})
          (with_video el2 a1)
  end.

(** The function the effect returned. *)
Definition unbind (a : App) : App :=
  match cleanup a, videoRef a with
  | Some c, Some videoEl =>
      with_effect (next_fn a) None
        (with_video
           (removeEventListener error (bound_error c)
              (removeEventListener loadedmetadata (bound_loadedmetadata c)
                 (removeEventListener timeupdate (bound_timeupdate c)
                    videoEl))) a)
  | _, _ => with_effect (next_fn a) None a
  end.

(** The subscriptions the element holds. *)
Definition listeners_of (a : App) : list (EventName * Listener) :=
  match videoRef a with
  | Some el => Dom.listeners el
  | None => []
  end.

(** Every function object on the element was allocated before now. *)
Definition fresh (a : App) : Prop :=
  Forall (λ r, fn r.2 < next_fn a) (listeners_of a).

(** A render in which [video.id] or [video.source] has changed: the
    cleanup of the last run, then the effect again. *)
Definition rebind (video : VideoItem) (a : App) : App :=
  bind video (unbind a).

(** A run of renders, each with a new [video] prop. *)
Definition rebinds (vs : list VideoItem) (a : App) : App :=
  foldl (λ s v, rebind v s) a vs.

(** The settings effect,
    [useEffect(..., [playbackRate, volume, isMuted])]. *)
Definition apply_settings (a : App) : App :=
  match videoRef a with
  | Some el => with_video (assign_settings (settings (store a)) el) a
  | None => a
  end.

(** A listener runs.  The handlers read the element through the [videoEl]
    they closed over, which is the one element of the component. *)
Definition run_listener (l : Listener) (a : App) : M App :=
  match body l, videoRef a with
  | handleTimeUpdate video, Some videoEl =>
      let a1 := with_ui (setCurrentTime (Dom.currentTime videoEl) (ui a)) a in
      let a2 := match last (Dom.buffered videoEl) with
                | Some r => with_ui (setBuffered r.2 (ui a1)) a1
                | None => a1
                end in
      st ← updateVideoProgress (id video) (Dom.currentTime videoEl)
             (store a2);
      mret (with_store st a2)
  | handleLoadedMetadata video, Some videoEl =>
      let a1 := with_ui (setDuration (Dom.duration videoEl) (ui a)) a in
      mret (if truthy (progress video)
            then let t := default 0%float (progress video) in
                 call (video_set_currentTime t)
                      (with_video (assign_currentTime t videoEl) a1)
            else a1)
  | handleError, _ => mret (with_ui (setLoadError true (ui a)) a)
  | arrow_setIsPlaying b, _ => mret (with_ui (setIsPlaying b (ui a)) a)
  | _, None => mret a
  end.

Fixpoint run_listeners (ls : list Listener) (a : App) : M App :=
  match ls with
  | [] => mret a
  | l :: ls' => a' ← run_listener l a; run_listeners ls' a'
  end.

(** The element fires an event: every listener registered for it runs, in
    the order of registration. *)
Definition fire (e : EventName) (a : App) : M App :=
  match videoRef a with
  | Some el =>
      run_listeners
        (snd <$> filter (λ r, r.1 = e) (Dom.listeners el)) a
  | None => mret a
  end.

(** What [handleTap] receives: a mouse event, or a touch event with the
    [clientX] of each of its touches. *)
Variant TapEvent :=
  | MouseEvent (clientX : float)
  | TouchEvent (touches : list float).

(** ['touches' in e ? e.touches[0].clientX : e.clientX]; [None] stands
    for the TypeError of [e.touches[0].clientX] on an empty touch list. *)
Definition tap_x (e : TapEvent) : option float :=
  match e with
  | MouseEvent clientX => Some clientX
  | TouchEvent touches => head touches
  end.

(** [None] is returned when the handler ends in that TypeError, before it
    has changed anything. *)
Definition handleTap (e : TapEvent) (a : App) : M (option App) :=
  now ← Date_now;
  match tap_x e with
  | None => mret None
  | Some x =>
      match containerRef a with
      | None => mret (Some a)
      | Some rect =>
          let relativeX := (x - rect_left rect)%float in
          let isLeftSide := (relativeX <? rect_width rect / 2)%float in
          if match lastTapRef a with
             | Some last_tap => bool_decide (now - time last_tap < 300)%Z
             | None => false
             end
          then
            mret (Some (with_lastTapRef None
                          (seek (if isLeftSide then -10 else 10)%float a)))
          else
            let a1 := with_lastTapRef (Some {| time := now; x := x |}) a in
            mret (Some (if isPlaying (ui a) then handleMouseMove a1
                        else togglePlay a1))
      end
  end.

(** The component as it is mounted: nothing bound, nothing pending. *)
Definition mount (s : VideoStore) (d : Document) (rect : DOMRect) : App :=
  {| store := s;
     ui := {| isPlaying := false; currentTime := 0; duration := 0;
              showControls := true; buffered := 0; isSpeedMenuOpen := false;
              skipFeedback := None; loadError := false;
              subtitleUrl := None |};
     videoRef := Some {| Dom.src := ""; Dom.currentTime := 0;
                         Dom.duration := nan; Dom.paused := true;
                         Dom.playbackRate := 1; Dom.volume := 1;
                         Dom.muted := false; Dom.buffered := [];
                         Dom.listeners := [] |};
     containerRef := Some rect;
     controlsTimeoutRef := None;
     lastTapRef := None;
     timers := [];
     next_timer := 1;
     next_fn := 0;
     cleanup := None;
     document := d;
     calls := [] |}.

End Player.

(** ** Sample data *)

Module Samples.

Definition item (i src : string) : VideoItem :=
  {| id := i; title := i; source := src; type := local; thumbnail := None;
     subtitleUrl := None; metadata := None; addedAt := 0;
     lastPlayedAt := None; progress := None; favorite := None |}.

(** Fifty items with the identifiers ["("], [")"], ... in ASCII order. *)
Definition catalog50 : list VideoItem :=
  (λ n, item (String (ascii_of_nat (40 + n)) "") "") <$> seq 0 50.

Definition full : VideoStore :=
  {| videos := catalog50; currentVideoId := Some "(";
     settings := settings initial |}.

Definition world : World :=
  {| clock := λ n, (1000 + 100 * Z.of_nat n)%Z; ticks := 0; secure := true;
     uuid := λ n, String (ascii_of_nat (97 + n)) "-uuid"; uuids := 0;
     objectURL := λ n, String (ascii_of_nat (48 + n)) ".blob"; blobs := 0;
     revoked := [] |}.

Definition movie : Helpers.File :=
  {| Helpers.name := "clip.final.mp4"; Helpers.size := 1024;
     Helpers.type := "video/mp4";
     Helpers.media :=
       Helpers.decodable 120 1920 1080 (λ _, true)
         (λ _ _ _, "data:image/jpeg;base64,AAAA") |}.

Definition noise : Helpers.File :=
  {| Helpers.name := "noise.bin"; Helpers.size := 7;
     Helpers.type := ""; Helpers.media := Helpers.undecodable |}.

Definition document : Player.Document :=
  {| Player.fullscreenElement := false;
     Player.has_requestFullscreen := true;
     Player.has_webkitRequestFullscreen := false;
     Player.has_msRequestFullscreen := false;
     Player.has_exitFullscreen := true;
     Player.has_webkitExitFullscreen := false |}.

Definition rect : Player.DOMRect :=
  {| Player.rect_left := 0; Player.rect_width := 800 |}.

(** The player as mounted over the one-item catalog of [a]. *)
Definition a : VideoItem := item "a" "blob:a".
Definition b : VideoItem := item "b" "blob:b".

Definition player : Player.App :=
  Player.mount (addVideo a initial) document rect.

(** The player bound to [a], and the same after a first tap at x = 100. *)
Definition bound : Player.App := Player.bind a player.

Definition tapped : Player.App :=
  default bound (Player.handleTap (Player.MouseEvent 100) bound world).1.

Definition world1 : World :=
  (Player.handleTap (Player.MouseEvent 100) bound world).2.

Definition element (p : Player.App) : Player.Dom.HTMLVideoElement :=
  default
    {| Player.Dom.src := ""; Player.Dom.currentTime := 0;
       Player.Dom.duration := nan; Player.Dom.paused := true;
       Player.Dom.playbackRate := 1; Player.Dom.volume := 1;
       Player.Dom.muted := false; Player.Dom.buffered := [];
       Player.Dom.listeners := [] |}
    (Player.videoRef p).

End Samples.

(** ** More of [String.prototype], on ASCII text *)

Module Text.

(** [s.startsWith(p)] *)
Fixpoint startsWith (p s : string) : bool :=
  match p, s with
  | EmptyString, _ => true
  | String _ _, EmptyString => false
  | String a p', String b s' =>
      if decide (a = b) then startsWith p' s' else false
  end.

(** [s.includes(q)] *)
Fixpoint includes (q s : string) : bool :=
  match s with
  | EmptyString => startsWith q EmptyString
  | String _ s' => startsWith q s || includes q s'
  end.

(** The ASCII white space [trim] removes: tab, line feed, vertical tab,
    form feed, carriage return and space. *)
Definition is_space (c : ascii) : bool :=
  let n := Ascii.N_of_ascii c in
  (((9 <=? n) && (n <=? 13)) || (n =? 32))%N.

Fixpoint trimStart (s : string) : string :=
  match s with
  | EmptyString => EmptyString
  | String c r => if is_space c then trimStart r else s
  end.

Fixpoint trimEnd (s : string) : string :=
  match s with
  | EmptyString => EmptyString
  | String c r =>
      match trimEnd r with
      | EmptyString => if is_space c then EmptyString else String c EmptyString
      | r' => String c r'
      end
  end.

Definition trim (s : string) : string := trimEnd (trimStart s).

End Text.

(** ** [src/App.tsx]: the projections of the catalog *)

Module AppView.

Variant ViewType := library | collection | recent.

(** [videos.find(v => v.id === currentVideoId)]; no item has the
    identifier [null]. *)
Definition currentVideo (st : VideoStore) : option VideoItem :=
  match currentVideoId st with
  | Some i => snd <$> list_find (λ v, id v = i) (videos st)
  | None => None
  end.

(** [v.favorite] as a condition, and [v.lastPlayedAt || 0]. *)
Definition is_favorite (v : VideoItem) : bool := default false (favorite v).

Definition played (v : VideoItem) : Z := default 0%Z (lastPlayedAt v).

(** [[...videos].sort((a, b) => (b.lastPlayedAt || 0) - (a.lastPlayedAt
    || 0))].  [Array.prototype.sort] is stable and the comparator is a
    total preorder, which fixes the result: the most recently played
    first, ties in the order of the catalog.  It is computed here by
    insertion from the right. *)
Fixpoint insert_recent (v : VideoItem) (l : list VideoItem)
  : list VideoItem :=
  match l with
  | [] => [v]
  | u :: l' =>
      if decide (played u ≤ played v)%Z then v :: u :: l'
      else u :: insert_recent v l'
  end.

Definition sort_recent (l : list VideoItem) : list VideoItem :=
  foldr insert_recent [] l.

(** [v.title.toLowerCase().includes(query)
    || (v.metadata?.format && v.metadata.format.toLowerCase().includes(query))] *)
Definition matches (query : string) (v : VideoItem) : bool :=
  Text.includes query (toLowerCase (title v))
  || match metadata v with
     | Some m =>
         match format m with
         | Some f =>
             negb (bool_decide (f = "")) && Text.includes query (toLowerCase f)
         | None => false
         end
     | None => false
     end.

Definition displayVideos (currentView : ViewType) (searchQuery : string)
  (videos : list VideoItem) : list VideoItem :=
  let base := match currentView with
              | collection => filter (λ v, is_favorite v = true) videos
              | recent => sort_recent videos
              | library => videos
              end in
  let query := Text.trim (toLowerCase searchQuery) in
  if decide (query = "") then base
  else filter (λ v, matches query v = true) base.

(** [displayVideos.filter(v => v.id !== currentVideo.id).slice(0, 8)] *)
Definition nextInVault (shown : list VideoItem) (current : VideoItem)
  : list VideoItem :=
  take 8 (filter (λ v, id v ≠ id current) shown).

(** The [useState] cells of [App] that the projections read, and a click
    on a navigation item:
    [setCurrentView(view); setCurrentVideo(null); setSearchQuery('')]. *)
Record View := {
  currentView : ViewType;
  searchQuery : string
}.

Definition navigate (view : ViewType) (s : View * VideoStore)
  : View * VideoStore :=
  ({| currentView := view; searchQuery := "" |}, setCurrentVideo None s.2).

End AppView.

(** ** [src/components/Uploader.tsx]: [scanFolder] *)

Module Scan.

Definition videoExts : list string :=
  ["mp4"; "mkv"; "webm"; "mov"; "avi"; "mp3"; "ogg"; "wav"].

(** [file.name.split('.').pop()?.toLowerCase()]: [split] is never empty. *)
Definition ext_of (file : Helpers.File) : string :=
  toLowerCase (default "" (last (split "."%char (Helpers.name file)))).

(** [file.type.startsWith('video/') || file.type.startsWith('audio/')
    || (ext && videoExts.includes(ext))] *)
Definition accepted (file : Helpers.File) : bool :=
  Text.startsWith "video/" (Helpers.type file)
  || Text.startsWith "audio/" (Helpers.type file)
  || (negb (bool_decide (ext_of file = ""))
      && bool_decide (ext_of file ∈ videoExts)).

(** What a directory handle enumerates. *)
Inductive Entry :=
  | file_entry (file : Helpers.File)
  | directory_entry (entries : list Entry).

(** How an [async] function ends: it returns, it throws, or it awaits a
    promise that never settles. *)
Variant Outcome := completed | thrown | stalled.

Definition scanned (file : Helpers.File) (t : Helpers.Thumbnail)
  (i src : string) (now : Z) : VideoItem :=
  {| id := i;
     title := default "" (head (split "."%char (Helpers.name file)));
     source := src;
     type := local;
     thumbnail := Some (Helpers.thumbnail t);
     subtitleUrl := None;
     metadata :=
       Some {| duration := Helpers.duration t;
               width := Helpers.width t;
               height := Helpers.height t;
               format := Some (ext_of file);
               size := Some (Helpers.size file) |};
     addedAt := now;
     lastPlayedAt := None;
     progress := None;
     favorite := None |}.

(** The body of [if (...) { ... }] for an accepted file. *)
Definition add_scanned (file : Helpers.File) (st : VideoStore)
  : M (VideoStore * Outcome) :=
  p ← Helpers.generateThumbnail file;
  match p with
  | pending => mret (st, stalled)
  | rejected _ => mret (st, thrown)
  | fulfilled t =>
      u ← crypto_randomUUID;
      match u with
      | None => mret (st, thrown)
      | Some i =>
          src ← URL_createObjectURL;
          now ← Date_now;
          mret (addVideo (scanned file t i src now) st, completed)
      end
  end.

(** One entry of the enumeration; a directory is walked in depth before
    the entry after it is looked at, and nothing is caught on the way. *)
Fixpoint visit (entry : Entry) (st : VideoStore) : M (VideoStore * Outcome) :=
  match entry with
  | file_entry file =>
      if accepted file then add_scanned file st else mret (st, completed)
  | directory_entry entries =>
      (fix each (es : list Entry) (st : VideoStore)
         : M (VideoStore * Outcome) :=
         match es with
         | [] => mret (st, completed)
         | e :: es' =>
             r ← visit e st;
             match r.2 with
             | completed => each es' r.1
             | _ => mret r
             end
         end) entries st
  end.

(** [processEntry(handle)] on a directory handle. *)
Definition processEntry (handle : list Entry) (st : VideoStore)
  : M (VideoStore * Outcome) :=
  visit (directory_entry handle) st.

(** What [window.showDirectoryPicker] is on this host: missing, or a
    function whose promise is rejected (the user cancelled, access was
    denied) or fulfilled with a directory handle. *)
Variant Picker :=
  | unsupported
  | refused
  | picked (handle : list Entry).

(** The state after [scanFolder], and whether [alert] was called. *)
Definition scanFolder (picker : Picker) (s : Uploader.State)
  : M (Uploader.State * bool) :=
  match picker with
  | unsupported =>
      mret ({| Uploader.isLoading := false;
               Uploader.store := Uploader.store s |}, true)
  | refused =>
      mret ({| Uploader.isLoading := false;
               Uploader.store := Uploader.store s |}, false)
  | picked handle =>
      r ← processEntry handle (Uploader.store s);
      mret ({| Uploader.isLoading :=
                 match r.2 with stalled => true | _ => false end;
               Uploader.store := r.1 |}, false)
  end.

(** The files a walk of the tree accepts, in the order it meets them. *)
Fixpoint accepted_files (entry : Entry) : list Helpers.File :=
  match entry with
  | file_entry file => if accepted file then [file] else []
  | directory_entry entries =>
      (fix each (es : list Entry) : list Helpers.File :=
         match es with
         | [] => []
         | e :: es' => accepted_files e ++ each es'
         end) entries
  end.

(** The same imports without the walk: a loop over a list of files. *)
Fixpoint add_all (files : list Helpers.File) (st : VideoStore)
  : M (VideoStore * Outcome) :=
  match files with
  | [] => mret (st, completed)
  | file :: rest =>
      r ← add_scanned file st;
      match r.2 with
      | completed => add_all rest r.1
      | _ => mret r
      end
  end.

End Scan.

(** ** [src/components/VideoPlayer.tsx]: the caption input *)

Module Captions.

Definition setSubtitleUrl (u : option string) (s : Player.UI) : Player.UI :=
  {| Player.isPlaying := Player.isPlaying s;
     Player.currentTime := Player.currentTime s;
     Player.duration := Player.duration s;
     Player.showControls := Player.showControls s;
     Player.buffered := Player.buffered s;
     Player.isSpeedMenuOpen := Player.isSpeedMenuOpen s;
     Player.skipFeedback := Player.skipFeedback s;
     Player.loadError := Player.loadError s;
     Player.subtitleUrl := u |}.

(** [file] is [e.target.files?.[0]]. *)
Definition handleSubtitleUpload (file : option Helpers.File) (a : Player.App)
  : M Player.App :=
  match file with
  | Some _ =>
      url ← URL_createObjectURL;
      mret (Player.with_ui (setSubtitleUrl (Some url) (Player.ui a)) a)
  | None => mret a
  end.

End Captions.

(** ** Conditions the theorems speak of *)

Module Conditions.

(** The two facts the catalog keeps: a bound and distinct identifiers. *)
Definition tidy (st : VideoStore) : Prop :=
  length (videos st) ≤ 50 ∧ NoDup (ids (videos st)).

(** A string of white space only. *)
Fixpoint white (s : string) : bool :=
  match s with
  | EmptyString => true
  | String c r => Text.is_space c && white r
  end.

(** The character [c] occurs in [s]. *)
Fixpoint occurs (c : ascii) (s : string) : bool :=
  match s with
  | EmptyString => false
  | String a r => bool_decide (a = c) || occurs c r
  end.

(** [l.join(sep)] for a one-character separator. *)
Fixpoint join (sep : ascii) (l : list string) : string :=
  match l with
  | [] => ""
  | [x] => x
  | x :: l' => x +:+ String sep (join sep l')
  end.

#[export] Instance Callback_eq_dec : EqDecision Player.Callback.
Proof. solve_decision. Defined.

(** Every pending timer that is not the timer of a skip cue is the one
    [controlsTimeoutRef] names. *)
Definition tracked (a : Player.App) : Prop :=
  ∀ t, t ∈ Player.timers a →
       Player.callback t ≠ Player.clear_skipFeedback →
       Player.controlsTimeoutRef a = Some (Player.timer t).

(** A subscription of one of the two anonymous arrows. *)
Definition stale (r : Player.EventName * Player.Listener) : Prop :=
  (r.1 = Player.play ∧ Player.body r.2 = Player.arrow_setIsPlaying true)
  ∨ (r.1 = Player.pause
     ∧ Player.body r.2 = Player.arrow_setIsPlaying false).

(** The five subscriptions of one run of the bind effect, whose first
    function object is number [n]. *)
Definition handlers (video : VideoItem) (n : nat)
  : list (Player.EventName * Player.Listener) :=
  [(Player.timeupdate,
    {| Player.fn := n; Player.body := Player.handleTimeUpdate video |});
   (Player.loadedmetadata,
    {| Player.fn := n + 1;
       Player.body := Player.handleLoadedMetadata video |});
   (Player.error, {| Player.fn := n + 2; Player.body := Player.handleError |});
   (Player.play,
    {| Player.fn := n + 3; Player.body := Player.arrow_setIsPlaying true |});
   (Player.pause,
    {| Player.fn := n + 4;
       Player.body := Player.arrow_setIsPlaying false |})].

(** The player is bound to [video]: the element holds the subscriptions
    of that binding, after arrows that earlier bindings left behind, and
    the cleanup of that binding is in place. *)
Definition bound_to (video : VideoItem) (a : Player.App) : Prop :=
  ∃ older n,
    Player.listeners_of a = older ++ handlers video n
    ∧ Forall stale older
    ∧ is_Some (Player.videoRef a)
    ∧ Player.cleanup a
      = Some {| Player.bound_timeupdate :=
                  {| Player.fn := n;
                     Player.body := Player.handleTimeUpdate video |};
                Player.bound_loadedmetadata :=
                  {| Player.fn := n + 1;
                     Player.body := Player.handleLoadedMetadata video |};
                Player.bound_error :=
                  {| Player.fn := n + 2;
                     Player.body := Player.handleError |} |}
    ∧ Player.fresh a.

End Conditions.
Export Conditions.

(** * The JavaScript primitives on a few inputs *)

Section primitives.
#[local] Open Scope float_scope.

Example Math_min_clamps : Math_min 1 (0.95 + 0.1) = 1.
Proof. reflexivity. Qed.

Example Math_min_passes : Math_min 1 (0.5 + 0.1) = 0.6.
Proof. reflexivity. Qed.

Example Math_max_clamps : Math_max 0 (0.05 - 0.1) = 0.
Proof. reflexivity. Qed.

Example Math_min_zeros : get_sign (Math_min 0 (-0)) = true.
Proof. reflexivity. Qed.

Example Math_min_nan : is_nan (Math_min 1 nan) = true.
Proof. reflexivity. Qed.

Example split_name : split "."%char "clip.final.mp4" = ["clip"; "final"; "mp4"].
Proof. reflexivity. Qed.

Example split_empty : split "."%char "" = [""].
Proof. reflexivity. Qed.

Example toLowerCase_tag : toLowerCase "TEXTAREA" = "textarea".
Proof. reflexivity. Qed.

End primitives.

(** * The catalog: bound, unique identifiers, recency order *)

Section catalog.
Implicit Types (v video : VideoItem) (vs l : list VideoItem) (i : string).

Lemma ids_filter_other i vs :
  i ∉ ids vs → filter (λ v, id v ≠ i) vs = vs.
Proof.
  induction vs as [|v vs IH]; [done|].
  rw /ids fmap_cons not_elem_of_cons. intros [Hne Hin].
  rw filter_cons_True; [|congruence]. by rw IH.
Qed.

Lemma ids_filter_absent i vs : i ∉ ids (filter (λ v, id v ≠ i) vs).
Proof.
  rw /ids list_elem_of_fmap. intros (v & -> & Hv).
  by apply list_elem_of_filter in Hv as [? _].
Qed.

Lemma NoDup_ids_filter i vs :
  NoDup (ids vs) → NoDup (ids (filter (λ v, id v ≠ i) vs)).
Proof.
  intros H. refine (sublist_NoDup _ (ids vs) H _).
  by apply fmap_sublist, sublist_filter.
Qed.

Lemma NoDup_ids_take n vs : NoDup (ids vs) → NoDup (ids (take n vs)).
Proof.
  intros H. refine (sublist_NoDup _ (ids vs) H _).
  by apply fmap_sublist, sublist_take.
Qed.

Lemma NoDup_ids_cons_filter v vs :
  NoDup (ids vs) → NoDup (ids (v :: filter (λ x, id x ≠ id v) vs)).
Proof.
  intros Hnd. rw /ids fmap_cons. apply NoDup_cons. split.
  - apply ids_filter_absent.
  - by apply NoDup_ids_filter.
Qed.

Lemma take_filter_take i n vs :
  NoDup (ids vs) →
  take n (filter (λ v, id v ≠ i) (take (S n) vs))
  = take n (filter (λ v, id v ≠ i) vs).
Proof.
  revert n. induction vs as [|v vs IH]; intros n Hnd; [done|].
  rw /ids fmap_cons in Hnd. apply NoDup_cons in Hnd as [Hv Hnd].
  rw firstn_cons. destruct (decide (id v = i)) as [<-|Hne].
  - rw !filter_cons_False; [|naive_solver..].
    rw (ids_filter_other _ vs Hv) ids_filter_other.
    + rw take_take. f_equal. lia.
    + intros Hin. apply Hv.
      refine (elem_of_sublist _ _ _ Hin _).
      by apply fmap_sublist, sublist_take.
  - rw !filter_cons_True; [|done..].
    destruct n as [|n]; [done|]. by rw !firstn_cons IH.
Qed.

Lemma first_of_each_NoDup l : NoDup (ids (first_of_each l)).
Proof.
  induction l as [|v l IH]; [constructor|].
  by apply NoDup_ids_cons_filter.
Qed.

Lemma addVideos_snoc l v st :
  addVideos (l ++ [v]) st = addVideo v (addVideos l st).
Proof. by rw /addVideos foldl_app. Qed.

Lemma addVideos_recent l :
  videos (addVideos l initial) = take 50 (first_of_each (reverse l)).
Proof.
  induction l as [|v l IH] using rev_ind; [done|].
  rw addVideos_snoc reverse_snoc /=. rw IH.
  f_equal. apply (take_filter_take (id v) 49), first_of_each_NoDup.
Qed.

Lemma addVideo_length v st : length (videos (addVideo v st)) ≤ 50.
Proof. apply firstn_le_length. Qed.

Lemma addVideo_NoDup v st :
  NoDup (ids (videos st)) → NoDup (ids (videos (addVideo v st))).
Proof. intros Hnd. by apply NoDup_ids_take, NoDup_ids_cons_filter. Qed.

Lemma first_of_each_NoDup_id l : NoDup (ids l) → first_of_each l = l.
Proof.
  induction l as [|v l IH]; [done|].
  rw /ids fmap_cons NoDup_cons. intros [Hv Hnd].
  rw /= (IH Hnd). by rw ids_filter_other.
Qed.

Lemma addVideo_frame v st :
  currentVideoId (addVideo v st) = currentVideoId st
  ∧ settings (addVideo v st) = settings st.
Proof. done. Qed.

Lemma addVideos_invariant l st :
  length (videos st) ≤ 50 → NoDup (ids (videos st)) →
  length (videos (addVideos l st)) ≤ 50
  ∧ NoDup (ids (videos (addVideos l st))).
Proof.
  revert st. induction l as [|v l IH]; intros st Hlen Hnd; [done|].
  apply IH; [apply addVideo_length | by apply addVideo_NoDup].
Qed.

Lemma addVideo_full_evicts_last v st :
  length (videos st) = 50 → id v ∉ ids (videos st) →
  ∃ kept oldest,
    videos st = kept ++ [oldest] ∧ videos (addVideo v st) = v :: kept.
Proof.
  intros Hlen Hfresh.
  destruct (videos st) as [|x vs] eqn:E using rev_ind; [done|].
  clear IHvs. exists vs, x. split; [done|].
  rw /addVideo /= E (ids_filter_other _ _ Hfresh).
  rw length_app /= in Hlen. f_equal.
  apply take_app_length'. lia.
Qed.

(** C1. [addVideo] drops the entries that carry the identifier of the new
    item, puts the new item in front and keeps the first 50 entries.
    After any run of [addVideo] calls from the empty catalog there are at
    most 50 entries, the identifiers are pairwise distinct, and the
    catalog is the 50 most recently inserted identifiers, most recent
    first; so an insertion of a new identifier into a full catalog drops
    the last entry, the least recently inserted one. *)
Theorem addVideo_bounded_unique_recent
  (st : VideoStore) (video : VideoItem) (l : list VideoItem) :
  videos (addVideo video st)
  = take 50 (video :: filter (λ v, id v ≠ id video) (videos st))
  ∧ length (videos (addVideo video st)) ≤ 50
  ∧ (NoDup (ids (videos st)) → NoDup (ids (videos (addVideo video st))))
  ∧ length (videos (addVideos l initial)) ≤ 50
  ∧ NoDup (ids (videos (addVideos l initial)))
  ∧ videos (addVideos l initial) = take 50 (first_of_each (reverse l))
  ∧ (NoDup (ids l) → videos (addVideos l initial) = take 50 (reverse l))
  ∧ (length (videos st) = 50 → id video ∉ ids (videos st) →
     ∃ kept oldest,
       videos st = kept ++ [oldest]
       ∧ videos (addVideo video st) = video :: kept).
Proof.
  split_and!.
  - done.
  - apply addVideo_length.
  - apply addVideo_NoDup.
  - apply addVideos_invariant; [simpl; lia | constructor].
  - apply addVideos_invariant; [simpl; lia | constructor].
  - apply addVideos_recent.
  - intros Hnd. rw addVideos_recent first_of_each_NoDup_id; [done|].
    by rw /ids fmap_reverse reverse_Permutation.
  - apply addVideo_full_evicts_last.
Qed.

End catalog.

(** * The catalog: progress *)

Section progress.
Implicit Types (v : VideoItem) (vs : list VideoItem) (i : string)
  (p : float) (w : World).

Lemma stamp_mapM_absent i p vs w :
  i ∉ ids vs → mapM (stamp i p) vs w = (vs, w).
Proof.
  revert w. induction vs as [|v vs IH]; intros w; [done|].
  rw /ids fmap_cons not_elem_of_cons. intros [Hne Hin].
  rw /= /mbind /M_bind /= {1}/stamp. rw decide_False; [|done].
  by rw /= (IH _ Hin).
Qed.

Lemma stamp_mapM_spec i p vs w :
  let r := mapM (stamp i p) vs w in
  length r.1 = length vs
  ∧ clock r.2 = clock w
  ∧ ticks r.2 = ticks w + length (filter (λ v, id v = i) vs)
  ∧ ∀ k v, vs !! k = Some v →
      (id v ≠ i → r.1 !! k = Some v)
      ∧ (id v = i →
         ∃ n, ticks w ≤ n < ticks r.2
              ∧ r.1 !! k = Some (with_progress p (clock w n) v)).
Proof.
  revert w. induction vs as [|v vs IH]; intros w.
  { simpl. split_and!; [done|done|lia|]. intros k v. by rw lookup_nil. }
  rw /= /mbind /M_bind /= /stamp.
  destruct (decide (id v = i)) as [Hv|Hv].
  - rw filter_cons_True; [|done]. rw /= /mbind /M_bind /=.
    pose proof (IH (Date_now w).2) as [Hlen [Hclk [Htk Hk]]].
    destruct (mapM _ vs _) as [vs' w'] eqn:E. simpl in *.
    split_and!; [by rw Hlen|done|lia|].
    intros [|k] u Hu; simpl in *.
    + injection Hu as <-. split; [done|]. intros _. exists (ticks w).
      split; [lia|done].
    + destruct (Hk k u Hu) as [Hne Heq]. split; [done|].
      intros Hi. destruct (Heq Hi) as (n & Hn & Hl). exists n.
      split; [lia|done].
  - rw filter_cons_False; [|done]. rw /= /mbind /M_bind /=.
    pose proof (IH w) as [Hlen [Hclk [Htk Hk]]].
    destruct (mapM _ vs _) as [vs' w'] eqn:E. simpl in *.
    split_and!; [by rw Hlen|done|lia|].
    intros [|k] u Hu; simpl in *.
    + injection Hu as <-. split; [done|]. by intros ?.
    + by apply Hk.
Qed.

Lemma ids_filter_same_absent i vs :
  i ∉ ids vs → filter (λ v, id v = i) vs = [].
Proof.
  induction vs as [|v vs IH]; [done|].
  rw /ids fmap_cons not_elem_of_cons. intros [Hne Hin].
  rw filter_cons_False; [|done]. by apply IH.
Qed.

Lemma NoDup_ids_count i vs :
  NoDup (ids vs) → i ∈ ids vs → length (filter (λ v, id v = i) vs) = 1.
Proof.
  induction vs as [|v vs IH]; [by rw /ids /= elem_of_nil|].
  rw /ids fmap_cons NoDup_cons elem_of_cons. intros [Hv Hnd] Hin.
  destruct (decide (id v = i)) as [<-|Hne].
  - rw filter_cons_True; [|done]. by rw ids_filter_same_absent.
  - rw filter_cons_False; [|done]. apply IH; [done|].
    by destruct Hin as [Heq|Hin]; [destruct Hne|].
Qed.

(** C3. [updateVideoProgress(id, progress)] sets, in every entry whose
    identifier is [id], the position to [progress] and the last-played
    time to a reading of the clock taken during the call, and changes
    nothing else: the other nine fields of such an entry, every other
    entry, the order and number of entries, the selection and the
    settings are as before.  With no entry of that identifier the store
    is unchanged and the clock is not read; with unique identifiers the
    clock is read once, so the entry of that identifier carries the
    reading the clock gave when the call began. *)
Theorem updateVideoProgress_frame
  (st : VideoStore) (i : string) (p : float) (w : World) :
  let st' := (updateVideoProgress i p st w).1 in
  let w' := (updateVideoProgress i p st w).2 in
  currentVideoId st' = currentVideoId st
  ∧ settings st' = settings st
  ∧ length (videos st') = length (videos st)
  ∧ (∀ k v, videos st !! k = Some v → id v ≠ i →
       videos st' !! k = Some v)
  ∧ (∀ k v, videos st !! k = Some v → id v = i →
       ∃ n, ticks w ≤ n < ticks w'
            ∧ videos st' !! k
              = Some {| id := id v; title := title v; source := source v;
                        type := type v; thumbnail := thumbnail v;
                        subtitleUrl := subtitleUrl v;
                        metadata := metadata v; addedAt := addedAt v;
                        lastPlayedAt := Some (clock w n);
                        progress := Some p; favorite := favorite v |})
  ∧ (i ∉ ids (videos st) → st' = st ∧ w' = w)
  ∧ (NoDup (ids (videos st)) → i ∈ ids (videos st) →
       ticks w' = S (ticks w))
  ∧ (NoDup (ids (videos st)) →
     ∀ k v, videos st !! k = Some v → id v = i →
       videos st' !! k
       = Some {| id := id v; title := title v; source := source v;
                 type := type v; thumbnail := thumbnail v;
                 subtitleUrl := subtitleUrl v;
                 metadata := metadata v; addedAt := addedAt v;
                 lastPlayedAt := Some (clock w (ticks w));
                 progress := Some p; favorite := favorite v |}).
Proof.
  pose proof (stamp_mapM_spec i p (videos st) w) as Hs.
  pose proof (stamp_mapM_absent i p (videos st) w) as Ha.
  rw /updateVideoProgress /mbind /M_bind /=.
  destruct (mapM _ (videos st) w) as [vs w1] eqn:E. simpl in *.
  destruct Hs as (Hlen & _ & Htk & Hk).
  split_and!; [done|done|done|..].
  - intros k v Hv Hne. destruct (Hk k v Hv) as [H1 _]. by apply H1.
  - intros k v Hv Heq. destruct (Hk k v Hv) as [_ H2]. by apply H2.
  - intros Hin. specialize (Ha Hin). injection Ha as H1 H2. subst vs w1.
    split; [by destruct st|done].
  - intros Hnd Hin. rw Htk NoDup_ids_count; [lia|done..].
  - intros Hnd k v Hv Heq. destruct (Hk k v Hv) as [_ H2].
    destruct (H2 Heq) as (n & Hn & Hl).
    assert (i ∈ ids (videos st)) as Hin.
    { rw -Heq. by eapply list_elem_of_fmap_2, list_elem_of_lookup_2. }
    rw Htk NoDup_ids_count // in Hn.
    assert (n = ticks w) as -> by lia. exact Hl.
Qed.

End progress.

(** * Binary64 facts behind the volume keys *)

Section floats.
#[local] Open Scope float_scope.


















End floats.

(** * The catalog: removal and durable snapshots *)

Section durable.
Implicit Types (v : VideoItem) (st : VideoStore) (i : string).

(** C7. [removeVideo(id)] deletes the entries of that identifier and keeps
    the others in order; the selection is cleared when it was [id] and is
    left as it was otherwise, so it changes exactly when [id] was
    selected. *)
Theorem removeVideo_selection st i :
  videos (removeVideo i st) = filter (λ v, id v ≠ i) (videos st)
  ∧ (i ∉ ids (videos (removeVideo i st)))
  ∧ (∀ v,
       v ∈ videos (removeVideo i st) ↔ (v ∈ videos st ∧ id v ≠ i))
  ∧ (currentVideoId st = Some i → currentVideoId (removeVideo i st) = None)
  ∧ (currentVideoId st ≠ Some i →
     currentVideoId (removeVideo i st) = currentVideoId st)
  ∧ ((currentVideoId (removeVideo i st) ≠ currentVideoId st)
     ↔ currentVideoId st = Some i)
  ∧ settings (removeVideo i st) = settings st.
Proof.
  split_and!; try done.
  - apply ids_filter_absent.
  - intros v. simpl. rw list_elem_of_filter. by split; intros [? ?].
  - simpl. intros ->. by rw decide_True.
  - simpl. intros H. by rw decide_False.
  - simpl. case_decide as H; [rw H; split; done|].
    split; [intros Hne; by destruct Hne | done].
Qed.

Lemma with_source_fields s v :
  source (with_source s v) = s
  ∧ id (with_source s v) = id v
  ∧ title (with_source s v) = title v
  ∧ type (with_source s v) = type v
  ∧ thumbnail (with_source s v) = thumbnail v
  ∧ subtitleUrl (with_source s v) = subtitleUrl v
  ∧ metadata (with_source s v) = metadata v
  ∧ addedAt (with_source s v) = addedAt v
  ∧ lastPlayedAt (with_source s v) = lastPlayedAt v
  ∧ progress (with_source s v) = progress v
  ∧ favorite (with_source s v) = favorite v.
Proof. done. Qed.

Lemma partialize_blank st : blank (partialize st).
Proof.
  rw /blank /partialize /=. apply Forall_fmap, Forall_true. by intros v.
Qed.

Lemma run_blank l st log w :
  Forall blank log → Forall blank (run l (st, log) w).1.2.
Proof.
  revert st log w. induction l as [|a l IH]; intros st log w Hlog; [done|].
  rw /= /mbind /M_bind /= /persisted /mbind /M_bind /=.
  destruct (act a st w) as [st' w'] eqn:E. simpl.
  apply IH. constructor; [apply partialize_blank|done].
Qed.

(** C4. The snapshot [persist] writes after a mutation is
    [partialize(state)]: the items of the catalog in order, each with an
    empty source locator and its other fields as they are, and the
    settings.  Whatever the actions, no snapshot written holds a
    non-empty source locator. *)
Theorem partialize_blanks_source
  st (a : Action) (l : list Action) (log : list Snapshot) (w : World) :
  blank (partialize st)
  ∧ length (snap_videos (partialize st)) = length (videos st)
  ∧ (∀ k v, videos st !! k = Some v →
       snap_videos (partialize st) !! k = Some (with_source "" v)
       ∧ source (with_source "" v) = ""
       ∧ id (with_source "" v) = id v
       ∧ title (with_source "" v) = title v
       ∧ type (with_source "" v) = type v
       ∧ thumbnail (with_source "" v) = thumbnail v
       ∧ subtitleUrl (with_source "" v) = subtitleUrl v
       ∧ metadata (with_source "" v) = metadata v
       ∧ addedAt (with_source "" v) = addedAt v
       ∧ lastPlayedAt (with_source "" v) = lastPlayedAt v
       ∧ progress (with_source "" v) = progress v
       ∧ favorite (with_source "" v) = favorite v)
  ∧ snap_settings (partialize st) = settings st
  ∧ (persisted a (st, log) w).1.2
    = partialize (persisted a (st, log) w).1.1 :: log
  ∧ Forall blank (run l (st, []) w).1.2.
Proof.
  split_and!.
  - apply partialize_blank.
  - by rw /partialize /= length_fmap.
  - intros k v Hv. split; [|apply with_source_fields].
    by rw /partialize /= list_lookup_fmap Hv.
  - done.
  - rw /persisted /mbind /M_bind /=. by destruct (act a st w).
  - by apply run_blank.
Qed.

End durable.

(** * Preferences *)

Section preferences.
#[local] Open Scope float_scope.
Import Player.

Lemma PLAYBACK_SPEEDS_is_speed r : r ∈ PLAYBACK_SPEEDS → is_speed r = true.
Proof.
  rw /PLAYBACK_SPEEDS !elem_of_cons elem_of_nil.
  intros H; destruct_or!; by subst.
Qed.

Lemma valid_initial : valid (settings initial) = true.
Proof. done. Qed.

Lemma merge_settings_valid s n :
  valid s = true →
  (∀ v, volume' n = Some v → in_unit v = true) →
  (∀ r, playbackRate' n = Some r → is_speed r = true) →
  valid (merge_settings s n) = true.
Proof.
  rw /valid. intros [Hv Hr]%andb_true_iff Hn Hp.
  apply andb_true_iff. simpl. split.
  - destruct (volume' n) as [v|]; [by apply Hn|done].
  - destruct (playbackRate' n) as [r|]; [by apply Hp|done].
Qed.

(** C8, as the code has it.  The defaults are a volume in [0, 1] and a
    rate of [PLAYBACK_SPEEDS]; [updateSettings(partial)] stores the fields
    of [partial] as they come and keeps the other fields, so the range
    holds afterwards when the volume of [partial], if any, is in [0, 1]
    and its rate, if any, is one of [PLAYBACK_SPEEDS], as it is for the
    speed menu, the mute toggle and the volume slider. *)
Theorem updateSettings_valid
  (n : PartialSettings) (st : VideoStore) (speed value : float)
  (a : App) :
  valid (settings st) = true →
  (∀ v, volume' n = Some v → in_unit v = true) →
  (∀ r, playbackRate' n = Some r → is_speed r = true) →
  valid (settings initial) = true
  ∧ valid (settings (updateSettings n st)) = true
  ∧ settings (updateSettings n st) = merge_settings (settings st) n
  ∧ videos (updateSettings n st) = videos st
  ∧ currentVideoId (updateSettings n st) = currentVideoId st
  ∧ (valid (settings (store a)) = true →
     (speed ∈ PLAYBACK_SPEEDS →
      valid (settings (store (onSpeedClick speed a))) = true)
     ∧ valid (settings (store (toggleMute a))) = true
     ∧ (in_unit value = true →
        valid (settings (store (onVolumeChange value a))) = true)).
Proof.
  intros Hst Hv Hr. split_and!; try done.
  - by apply merge_settings_valid.
  - intros Ha. split_and!.
    + intros Hs%PLAYBACK_SPEEDS_is_speed.
      apply merge_settings_valid; [done|done|]. by intros r [= <-].
    + by apply merge_settings_valid.
    + intros Hval. apply merge_settings_valid; [done| |done].
      by intros v [= <-].
Qed.

(** C8, as the claim states it, fails: [updateSettings] stores a volume of
    5, and a rate of 7, that a caller hands it. *)
Lemma updateSettings_out_of_range :
  valid (settings initial) = true
  ∧ valid (settings (updateSettings
                       {| volume' := Some 5; playbackRate' := None;
                          isMuted' := None; isTheaterMode' := None;
                          quality' := None |} initial)) = false
  ∧ in_unit (volume (settings (updateSettings
                       {| volume' := Some 5; playbackRate' := None;
                          isMuted' := None; isTheaterMode' := None;
                          quality' := None |} initial))) = false
  ∧ is_speed (playbackRate (settings (updateSettings
                       {| volume' := None; playbackRate' := Some 7;
                          isMuted' := None; isTheaterMode' := None;
                          quality' := None |} initial))) = false.
Proof. by vm_compute. Qed.

End preferences.

(** * The keyboard *)

Section keyboard.
#[local] Open Scope float_scope.
Import Player.




End keyboard.

(** * Thumbnail extraction *)

Section thumbnail.
#[local] Open Scope float_scope.
Import Helpers.
Implicit Types (s : Session) (w : World) (e : Event) (es : list Event).

Lemma resolve_fulfilled {R} (r t : R) : resolve r (fulfilled t) = fulfilled t.
Proof. done. Qed.

Lemma dispatch_fulfilled e s w t :
  promise s = fulfilled t → promise (dispatch e s w).1 = fulfilled t.
Proof. intros H. destruct e; simpl; by rw ?H. Qed.

Lemma dispatch_pending e s w :
  promise s = pending →
  match e with
  | loadedmetadata _ _ _ => promise (dispatch e s w).1 = pending
  | seeked _ => ∃ t, promise (dispatch e s w).1 = fulfilled t
  | error => promise (dispatch e s w).1 = fulfilled degraded
  end.
Proof. intros H. destruct e; simpl; rw ?H; by eauto. Qed.

Lemma deliver_cons e es s w :
  deliver (e :: es) s w = deliver es (dispatch e s w).1 (dispatch e s w).2.
Proof. rw /= /mbind /M_bind. by destruct (dispatch e s w). Qed.

Lemma deliver_fulfilled es s w t :
  promise s = fulfilled t → promise (deliver es s w).1 = fulfilled t.
Proof.
  revert s w. induction es as [|e es IH]; intros s w H; [done|].
  rw deliver_cons. by apply IH, dispatch_fulfilled.
Qed.

(** A pending promise stays pending exactly as long as no event settles
    the load or the seek. *)
Lemma deliver_pending es s w :
  promise s = pending →
  (promise (deliver es s w).1 = pending ∧ ¬ Exists settles es)
  ∨ ((∃ t, promise (deliver es s w).1 = fulfilled t) ∧ Exists settles es).
Proof.
  revert s w. induction es as [|e es IH]; intros s w H.
  { left. split; [done|]. by intros ?%Exists_nil. }
  rw deliver_cons. pose proof (dispatch_pending e s w H) as H'.
  destruct e as [d vw vh|pic|].
  - destruct (IH _ (dispatch (loadedmetadata d vw vh) s w).2 H')
      as [[Hp Hn]|[Hp Hn]].
    + left. split; [done|]. by intros [?|?]%Exists_cons.
    + right. split; [done|]. by apply Exists_cons_tl.
  - right. destruct H' as [t Ht]. split; [|by apply Exists_cons_hd].
    exists t. by apply deliver_fulfilled.
  - right. split; [|by apply Exists_cons_hd].
    exists degraded. by apply deliver_fulfilled.
Qed.

Lemma deliver_error_first es1 es2 s w :
  promise s = pending → Forall (λ e, ¬ settles e) es1 →
  promise (deliver (es1 ++ error :: es2) s w).1 = fulfilled degraded.
Proof.
  revert s w. induction es1 as [|e es1 IH]; intros s w H Hes.
  - rw app_nil_l deliver_cons.
    by apply deliver_fulfilled, (dispatch_pending error).
  - apply Forall_cons in Hes as [He Hes].
    rw -app_comm_cons deliver_cons. apply IH; [|done].
    destruct e; [|done..]. by apply (dispatch_pending (loadedmetadata _ _ _)).
Qed.

(** What [generateThumbnail] leaves of the host: one object URL made and
    revoked, nothing else touched. *)
Lemma generateThumbnail_spec file w :
  ∃ t, generateThumbnail file w
       = (fulfilled t,
          {| clock := clock w; ticks := ticks w; secure := secure w;
             uuid := uuid w; uuids := uuids w; objectURL := objectURL w;
             blobs := S (blobs w);
             revoked := objectURL w (blobs w) :: revoked w |})
       ∧ match media file with
         | undecodable => t = degraded
         | decodable d vw vh seekable encoded =>
             let p := Math_min 1 (d * 0.1) in
             if seekable p
             then t = {| thumbnail := encoded p 640 (640 / (vw / vh));
                         duration := d; width := vw; height := vh |}
             else t = degraded
         end.
Proof.
  rw /generateThumbnail /decode /mbind /M_bind /=.
  destruct (media file) as [|d vw vh seekable encoded]; simpl.
  - by exists degraded.
  - destruct (seekable _); simpl; by eexists.
Qed.

(** C5. [generateThumbnail(file)] settles with a value for every file:
    the degraded result when the file cannot be decoded or the seek
    fails, the captured frame with the intrinsic metadata otherwise.
    Whatever events the element delivers, the promise is never rejected;
    it is fulfilled as soon as [seeked] or [error] arrives, and an
    [error] that comes before any [seeked] fulfils it with the degraded
    result. *)
Theorem generateThumbnail_resolves
  (file : File) (w : World) (es es1 es2 : list Event) :
  let session := (executor file w).1 in
  let w0 := (executor file w).2 in
  (∃ t, (generateThumbnail file w).1 = fulfilled t)
  ∧ (media file = undecodable →
     (generateThumbnail file w).1 = fulfilled degraded)
  ∧ (∀ d vw vh seekable encoded,
       media file = decodable d vw vh seekable encoded →
       (seekable (Math_min 1 (d * 0.1)) = false →
        (generateThumbnail file w).1 = fulfilled degraded)
       ∧ (seekable (Math_min 1 (d * 0.1)) = true →
          (generateThumbnail file w).1
          = fulfilled
              {| thumbnail :=
                   encoded (Math_min 1 (d * 0.1)) 640 (640 / (vw / vh));
                 duration := d; width := vw; height := vh |}))
  ∧ (∀ reason, promise (deliver es session w0).1 ≠ rejected reason)
  ∧ (Exists settles es
     ↔ ∃ t, promise (deliver es session w0).1 = fulfilled t)
  ∧ (Forall (λ e, ¬ settles e) es1 →
     promise (deliver (es1 ++ error :: es2) session w0).1
     = fulfilled degraded).
Proof.
  intros session w0.
  destruct (generateThumbnail_spec file w) as (t & Ht & Hm).
  assert (promise session = pending) as Hp by done.
  split_and!.
  - exists t. by rw Ht.
  - intros Hu. rw Hu in Hm. by rw Ht Hm.
  - intros d vw vh seekable encoded Hd. rw Hd /= in Hm.
    split; intros Hs; rw Hs in Hm; by rw Ht Hm.
  - intros reason.
    by destruct (deliver_pending es session w0 Hp) as [[-> _]|[[? ->] _]].
  - destruct (deliver_pending es session w0 Hp) as [[H1 H2]|[H1 H2]].
    + split; [done|]. intros [? H]. by rw H1 in H.
    + done.
  - by apply deliver_error_first.
Qed.

End thumbnail.

(** * The file picker *)

Section upload.
Import Uploader.
Implicit Types (file : Helpers.File) (files : list Helpers.File)
  (st : VideoStore) (w : World).

Lemma import_secure n file st w :
  secure w = true →
  ∃ t, (import n file st w).1
       = Some (let v := newVideo file t (uuid w (uuids w))
                          (objectURL w (S (blobs w))) (clock w (ticks w)) in
               if decide (n = 1)
               then setCurrentVideo (Some (id v)) (addVideo v st)
               else addVideo v st).
Proof.
  intros Hs. destruct (generateThumbnail_spec file w) as (t & Ht & _).
  exists t. rw /import /mbind /M_bind Ht /= /crypto_randomUUID /= Hs /=.
  by case_decide.
Qed.

Lemma import_insecure n file st w :
  secure w = false → (import n file st w).1 = Some st.
Proof.
  intros Hs. destruct (generateThumbnail_spec file w) as (t & Ht & _).
  by rw /import /mbind /M_bind Ht /= /crypto_randomUUID /= Hs.
Qed.

Lemma import_selection n file st w :
  n ≠ 1 →
  ∃ st', (import n file st w).1 = Some st'
         ∧ currentVideoId st' = currentVideoId st.
Proof.
  intros Hn. destruct (secure w) eqn:Hs.
  - destruct (import_secure n file st w Hs) as [t ->].
    eexists. split; [done|]. simpl. by case_decide.
  - rw import_insecure; [|done]. by eexists.
Qed.

Lemma for_of_selection n files st w :
  n ≠ 1 →
  currentVideoId (for_of n files st w).1.1 = currentVideoId st
  ∧ (for_of n files st w).1.2 = true.
Proof.
  intros Hn. revert st w. induction files as [|file files IH]; intros st w.
  { done. }
  rw /= /mbind /M_bind.
  destruct (import_selection n file st w Hn) as (st' & Hi & Hc).
  destruct (import n file st w) as [r w']. simpl in Hi. subst r.
  rw -Hc. apply IH.
Qed.

(** C10. With exactly one file chosen, and a host that has
    [crypto.randomUUID], the item made of the file is put in front of the
    catalog and becomes the selection; on a host without it the import
    fails and the store is left alone.  With two files or more the
    selection after the import is the selection before it. *)
Theorem handleLocalUpload_selection files (s : State) w :
  let s' := (handleLocalUpload files s w).1 in
  (∀ file, files = [file] → secure w = true →
     ∃ v, videos (store s')
          = take 50 (v :: filter (λ x, id x ≠ id v) (videos (store s)))
          ∧ head (videos (store s')) = Some v
          ∧ id v = uuid w (uuids w)
          ∧ currentVideoId (store s') = Some (id v)
          ∧ isLoading s' = false)
  ∧ (∀ file, files = [file] → secure w = false → store s' = store s)
  ∧ (2 ≤ length files →
     currentVideoId (store s') = currentVideoId (store s)
     ∧ isLoading s' = false)
  ∧ (files = [] → s' = s).
Proof.
  intros s'. subst s'. split_and!.
  - intros file -> Hs.
    destruct (import_secure 1 file (store s) w Hs) as [t Hi].
    rw /handleLocalUpload /= /mbind /M_bind /=.
    destruct (import 1 file (store s) w) as [r w']. simpl in Hi. subst r.
    simpl. by eexists (newVideo _ _ _ _ _).
  - intros file -> Hs.
    pose proof (import_insecure 1 file (store s) w Hs) as Hi.
    rw /handleLocalUpload /= /mbind /M_bind /=.
    destruct (import 1 file (store s) w) as [r w']. simpl in Hi. by subst r.
  - intros Hlen. rw /handleLocalUpload decide_False; [|lia].
    rw /mbind /M_bind.
    destruct (for_of_selection (length files) files (store s) w) as [Hc Hb];
      [lia|].
    destruct (for_of _ files _ w) as [[st b] w']. simpl in *. by subst b.
  - by intros ->.
Qed.

End upload.

(** * The bind effect and its cleanup *)

Section binding.
Import Player.
Implicit Types (a : App) (el : Dom.HTMLVideoElement) (l : Listener)
  (ty : EventName) (video : VideoItem).

Lemma addEventListener_new ty l el :
  Forall (λ r, fn r.2 ≠ fn l) (Dom.listeners el) →
  Dom.listeners (addEventListener ty l el) = Dom.listeners el ++ [(ty, l)].
Proof.
  intros H. rw /addEventListener decide_False; [done|].
  intros (r & Hr & _ & Heq)%Exists_exists.
  by apply (proj1 (Forall_forall _ _) H r Hr).
Qed.

Lemma filter_keep_older (n : nat) ty k (ls : list (EventName * Listener)) :
  Forall (λ r, fn r.2 < n) ls → n ≤ k →
  filter (λ r, ¬ (r.1 = ty ∧ fn r.2 = k)) ls = ls.
Proof.
  intros H Hk. induction H as [|r ls Hr H IH]; [done|].
  rw filter_cons_True; [by rw IH|]. intros [_ ?]. lia.
Qed.

(** The listeners on the element after the effect has run. *)
Lemma bind_listeners video a el :
  videoRef a = Some el → source video ≠ "" → fresh a →
  listeners_of (bind video a)
  = Dom.listeners el
    ++ [(timeupdate, {| fn := next_fn a; body := handleTimeUpdate video |});
        (loadedmetadata,
         {| fn := next_fn a + 1; body := handleLoadedMetadata video |});
        (error, {| fn := next_fn a + 2; body := handleError |});
        (play, {| fn := next_fn a + 3; body := arrow_setIsPlaying true |});
        (pause, {| fn := next_fn a + 4; body := arrow_setIsPlaying false |})].
Proof.
  intros Hel Hsrc Hfresh. rw /fresh /listeners_of Hel in Hfresh.
  rw /bind Hel decide_False; [|done]. rw /listeners_of /=.
  rw !addEventListener_new /=; rw -?app_assoc //;
    rw ?Forall_app ?Forall_singleton /=; split_and?; try lia;
    (eapply Forall_impl; [exact Hfresh|simpl; intros; lia]).
Qed.

(** The cleanup takes the three named handlers off and nothing else. *)
Lemma unbind_bind_listeners video a el :
  videoRef a = Some el → source video ≠ "" → fresh a →
  listeners_of (unbind (bind video a))
  = Dom.listeners el
    ++ [(play, {| fn := next_fn a + 3; body := arrow_setIsPlaying true |});
        (pause, {| fn := next_fn a + 4; body := arrow_setIsPlaying false |})].
Proof.
  intros Hel Hsrc Hfresh.
  pose proof (bind_listeners video a el Hel Hsrc Hfresh) as Hb.
  rw /fresh /listeners_of Hel in Hfresh.
  rw /listeners_of /bind Hel decide_False // /= in Hb.
  rw /unbind /bind Hel decide_False // /listeners_of /= Hb.
  rw !filter_app !(filter_keep_older (next_fn a) _ _ (Dom.listeners el)) //;
    try lia.
  f_equal.
  repeat first
    [ rw filter_nil
    | rw filter_cons_True; [|simpl; intros [H1 H2]; (discriminate H1 || lia)]
    | rw filter_cons_False; [|simpl; intros H; apply H; split; [done|lia]] ].
  done.
Qed.

Lemma bind_fresh video a : fresh a → fresh (bind video a).
Proof.
  intros Hf. destruct (videoRef a) as [el|] eqn:Hel;
    [destruct (decide (source video = "")) as [Hs|Hs]|].
  - by rw /fresh /bind Hel decide_True.
  - rw /fresh (bind_listeners video a el Hel Hs Hf).
    rw /fresh /listeners_of Hel in Hf.
    rw /bind Hel decide_False // /=. apply Forall_app. split.
    + eapply Forall_impl; [exact Hf|simpl; intros; lia].
    + repeat (constructor; [simpl; lia|]). constructor.
  - by rw /fresh /bind /listeners_of Hel.
Qed.

Lemma filter_filter_keep {A} (P Q : A → Prop)
  `{∀ x, Decision (P x)} `{∀ x, Decision (Q x)} (ls : list A) :
  (∀ x, Q x → P x) → filter Q (filter P ls) = filter Q ls.
Proof.
  intros HQP. induction ls as [|x ls IH]; [done|].
  destruct (decide (P x)) as [HP|HP].
  - rw (filter_cons_True P) //. destruct (decide (Q x)) as [HQ|HQ].
    + by rw !(filter_cons_True Q) // IH.
    + by rw !(filter_cons_False Q) // IH.
  - rw (filter_cons_False P) // (filter_cons_False Q) //. naive_solver.
Qed.

Lemma Forall_filter_keep {A} (P Q : A → Prop) `{∀ x, Decision (Q x)}
  (ls : list A) : Forall P ls → Forall P (filter Q ls).
Proof.
  rw !Forall_forall. intros HP x [_ Hx]%list_elem_of_filter. by apply HP.
Qed.

(** The cleanup never touches a [play] subscription. *)
Lemma unbind_play a :
  filter (λ r, r.1 = play) (listeners_of (unbind a))
  = filter (λ r, r.1 = play) (listeners_of a).
Proof.
  rw /unbind /listeners_of.
  destruct (cleanup a) as [c|], (videoRef a) as [el|] eqn:E;
    rw /= ?E //.
  rw /removeEventListener /=.
  rw !filter_filter_keep //; by intros r -> [[=] _].
Qed.

Lemma unbind_fresh a : fresh a → fresh (unbind a).
Proof.
  rw /fresh /unbind /listeners_of.
  destruct (cleanup a) as [c|], (videoRef a) as [el|] eqn:E;
    rw /= ?E //.
  intros H. by do 3 apply Forall_filter_keep.
Qed.

Lemma unbind_videoRef a :
  is_Some (videoRef a) → is_Some (videoRef (unbind a)).
Proof.
  intros [el Hel]. rw /unbind Hel.
  destruct (cleanup a) as [c|]; rw /= ?Hel; by eexists.
Qed.

Lemma bind_videoRef video a :
  is_Some (videoRef a) → is_Some (videoRef (bind video a)).
Proof.
  intros [el Hel]. rw /bind Hel.
  case_decide; rw /= ?Hel; by eexists.
Qed.

(** One more [play] subscription with every rebind. *)
Lemma rebind_play video a :
  is_Some (videoRef a) → source video ≠ "" → fresh a →
  length (filter (λ r, r.1 = play) (listeners_of (rebind video a)))
  = S (length (filter (λ r, r.1 = play) (listeners_of a))).
Proof.
  intros Hel Hsrc Hf. rw /rebind.
  destruct (unbind_videoRef a Hel) as [el' Hel'].
  rw (bind_listeners video (unbind a) el' Hel' Hsrc (unbind_fresh a Hf)).
  rw -(unbind_play a) /listeners_of Hel'.
  rw filter_app length_app /=. lia.
Qed.

Lemma rebinds_play vs a :
  is_Some (videoRef a) → Forall (λ v, source v ≠ "") vs → fresh a →
  length (filter (λ r, r.1 = play) (listeners_of (rebinds vs a)))
  = length vs + length (filter (λ r, r.1 = play) (listeners_of a)).
Proof.
  intros Hel Hvs. revert a Hel.
  induction Hvs as [|v vs Hv Hvs IH]; intros a Hel Hf; [done|].
  rw /= IH.
  - rw rebind_play //; lia.
  - by apply bind_videoRef, unbind_videoRef.
  - by apply bind_fresh, unbind_fresh.
Qed.

(** C2 (a defect of the code).  The player is mounted and bound to item
    [a], then rebound to item [b].  The effect subscribes five listeners
    ([timeupdate], [loadedmetadata], [error], [play], [pause]); its
    cleanup unsubscribes the first three, so the element still holds the
    [play] and [pause] subscriptions of the binding that was cleaned up,
    and after four bindings it holds four [play] subscriptions. *)
Theorem unbind_leaves_play_and_pause :
  let a1 := bind Samples.a Samples.player in
  let a2 := unbind a1 in
  let a3 := bind Samples.b a2 in
  fst <$> listeners_of a1 = [timeupdate; loadedmetadata; error; play; pause]
  ∧ listeners_of a2
    = [(play, {| fn := 3; body := arrow_setIsPlaying true |});
       (pause, {| fn := 4; body := arrow_setIsPlaying false |})]
  ∧ fst <$> listeners_of a3
    = [play; pause; timeupdate; loadedmetadata; error; play; pause]
  ∧ length (filter (λ r, r.1 = play)
              (listeners_of
                 (rebinds [Samples.a; Samples.b; Samples.a; Samples.b]
                    Samples.player))) = 4.
Proof. by vm_compute. Qed.

End binding.

(** * Taps *)

Section taps.
#[local] Open Scope float_scope.
Import Player.
Implicit Types (a : App) (el : Dom.HTMLVideoElement) (e : TapEvent)
  (w : World).

Lemma run_callback_quiet cb a :
  calls (run_callback cb a) = calls a
  ∧ videoRef (run_callback cb a) = videoRef a
  ∧ store (run_callback cb a) = store a.
Proof. by destruct cb as [[]|]. Qed.

Lemma run_callbacks_quiet (due : list Timer) a :
  let a' := foldl (λ s t, run_callback (callback t) s) a due in
  calls a' = calls a ∧ videoRef a' = videoRef a ∧ store a' = store a.
Proof.
  revert a. induction due as [|t due IH]; intros a; [done|].
  simpl. destruct (IH (run_callback (callback t) a)) as (-> & -> & ->).
  apply run_callback_quiet.
Qed.

(** Time that passes moves no media and calls nothing on the host. *)
Lemma elapse_quiet ms a :
  calls (elapse ms a) = calls a
  ∧ videoRef (elapse ms a) = videoRef a
  ∧ store (elapse ms a) = store a.
Proof.
  rw /elapse.
  by destruct (run_callbacks_quiet
                 (filter (λ t, (remaining t ≤ ms)%Z) (timers a))
                 (with_timers
                    ((λ t, {| timer := timer t;
                              remaining := (remaining t - ms)%Z;
                              callback := callback t |})
                       <$> filter (λ t, ¬ (remaining t ≤ ms)%Z) (timers a))
                    (next_timer a) a)) as (-> & -> & ->).
Qed.

Lemma seek_spec amount a el :
  videoRef a = Some el →
  calls (seek amount a)
  = calls a ++ [video_set_currentTime (Dom.currentTime el + amount)]
  ∧ videoRef (seek amount a)
    = Some (assign_currentTime (Dom.currentTime el + amount) el)
  ∧ skipFeedback (ui (seek amount a))
    = Some (if amount <? 0 then left else right)
  ∧ isPlaying (ui (seek amount a)) = isPlaying (ui a)
  ∧ lastTapRef (seek amount a) = lastTapRef a
  ∧ store (seek amount a) = store a.
Proof. intros Hel. by rw /seek Hel. Qed.

Lemma togglePlay_spec a el :
  videoRef a = Some el →
  calls (togglePlay a)
  = calls a ++ [if Dom.paused el then video_play else video_pause]
  ∧ videoRef (togglePlay a) = Some (assign_paused (negb (Dom.paused el)) el)
  ∧ lastTapRef (togglePlay a) = lastTapRef a
  ∧ store (togglePlay a) = store a.
Proof. intros Hel. rw /togglePlay Hel. by destruct (Dom.paused el). Qed.

Lemma handleMouseMove_spec a :
  calls (handleMouseMove a) = calls a
  ∧ videoRef (handleMouseMove a) = videoRef a
  ∧ showControls (ui (handleMouseMove a)) = true
  ∧ lastTapRef (handleMouseMove a) = lastTapRef a
  ∧ store (handleMouseMove a) = store a.
Proof. rw /handleMouseMove. by destruct (controlsTimeoutRef _). Qed.

(** X29. What [handleTap] does with a tap, by the time since the
    recorded one alone.  A tap that comes less than 300 ms after the
    recorded one, wherever on the player that one was, assigns
    [currentTime] once, by -10 s when the tap is left of the centre and
    by +10 s otherwise, and the recorded tap is forgotten.  A tap with
    no recorded tap that recent is recorded, the player starts (or
    stops) when it does not show as playing and only shows its controls
    when it does; nothing seeks, then or in the silence that follows. *)
Theorem handleTap_double_or_single
  e a w (x : float) (rect : DOMRect) el :
  tap_x e = Some x → containerRef a = Some rect → videoRef a = Some el →
  let now := clock w (ticks w) in
  let isLeftSide := (x - rect_left rect <? rect_width rect / 2) in
  let r := (handleTap e a w).1 in
  (∀ last_tap, lastTapRef a = Some last_tap →
     (now - time last_tap < 300)%Z →
     ∃ a', r = Some a'
       ∧ lastTapRef a' = None
       ∧ calls a'
         = calls a
           ++ [video_set_currentTime
                 (Dom.currentTime el + (if isLeftSide then -10 else 10))]
       ∧ videoRef a'
         = Some (assign_currentTime
                   (Dom.currentTime el + (if isLeftSide then -10 else 10))
                   el)
       ∧ skipFeedback (ui a') = Some (if isLeftSide then left else right)
       ∧ isPlaying (ui a') = isPlaying (ui a)
       ∧ store a' = store a)
  ∧ ((lastTapRef a = None
      ∨ ∃ last_tap, lastTapRef a = Some last_tap
                    ∧ (300 ≤ now - time last_tap)%Z) →
     ∃ a', r = Some a'
       ∧ lastTapRef a' = Some {| time := now; x := x |}
       ∧ store a' = store a
       ∧ (isPlaying (ui a) = false →
          calls a'
          = calls a ++ [if Dom.paused el then video_play else video_pause]
          ∧ videoRef a' = Some (assign_paused (negb (Dom.paused el)) el))
       ∧ (isPlaying (ui a) = true →
          calls a' = calls a
          ∧ videoRef a' = Some el
          ∧ showControls (ui a') = true)
       ∧ (∀ ms, calls (elapse ms a') = calls a'
                ∧ videoRef (elapse ms a') = videoRef a')).
Proof.
  intros Hx Hrect Hel now isLeftSide r. subst r.
  rw /handleTap /mbind /M_bind /= Hx Hrect. fold now. split.
  - intros last_tap Hl Hlt. rw Hl bool_decide_true //=.
    destruct (seek_spec (if isLeftSide then -10 else 10) a el Hel)
      as (Hc & Hv & Hs & Hp & _ & Hst).
    eexists. split; [done|]. rw /= Hc Hv Hs Hp Hst.
    split_and!; try done. by destruct isLeftSide.
  - intros Hsingle.
    assert (match lastTapRef a with
            | Some last_tap => bool_decide (now - time last_tap < 300)%Z
            | None => false
            end = false) as ->.
    { destruct Hsingle as [->|(last_tap & -> & Hge)]; [done|].
      apply bool_decide_eq_false. lia. }
    simpl. eexists. split; [done|].
    set (a1 := with_lastTapRef (Some {| time := now; x := x |}) a).
    destruct (isPlaying (ui a)).
    + pose proof (handleMouseMove_spec a1) as (Hc & Hv & Hs & Hl & Hst).
      split_and!; [by rw Hl|by rw Hst|done| |].
      * intros _. by rw Hc Hv Hs.
      * intros ms.
        by destruct (elapse_quiet ms (handleMouseMove a1)) as (-> & -> & _).
    + pose proof (togglePlay_spec a1 el Hel) as (Hc & Hv & Hl & Hst).
      split_and!; [by rw Hl|by rw Hst| |done|].
      * intros _. by rw Hc Hv.
      * intros ms.
        by destruct (elapse_quiet ms (togglePlay a1)) as (-> & -> & _).
Qed.

(** C6 (a defect of the code).  The player is 800 px wide, bound to
    item [a] and paused.  A first tap at x = 100, on the left half, at
    1000 ms is recorded with its position and starts the player.  A
    second tap at x = 700, on the right half, at 1100 ms is not on the
    half of the first, and nothing follows it for 400 ms: it is to be a
    single tap, which does not seek.  The code takes it for a
    double tap: it seeks by +10 s, shows the cue on the right and
    forgets the recorded tap.  The position that was recorded with the
    first tap is never read: whatever it is, a tap makes the same calls
    and leaves the same element, state cells, store and timers. *)
Theorem handleTap_other_half :
  (handleTap (MouseEvent 100) Samples.bound Samples.world).1
  = Some Samples.tapped
  ∧ lastTapRef Samples.tapped = Some {| time := 1000; x := 100 |}
  ∧ calls Samples.tapped = [video_play]
  ∧ calls <$> (handleTap (MouseEvent 700) Samples.tapped Samples.world1).1
    = Some [video_play; video_set_currentTime 10]
  ∧ lastTapRef
      <$> (handleTap (MouseEvent 700) Samples.tapped Samples.world1).1
    = Some None
  ∧ (λ a, skipFeedback (ui a))
      <$> (handleTap (MouseEvent 700) Samples.tapped Samples.world1).1
    = Some (Some right)
  ∧ (λ a, calls (elapse 400 a))
      <$> (handleTap (MouseEvent 700) Samples.tapped Samples.world1).1
    = Some [video_play; video_set_currentTime 10]
  ∧ ∀ e a w (t : Z) (x0 x1 : float),
      let r0 :=
        handleTap e (with_lastTapRef (Some {| time := t; x := x0 |}) a) w in
      let r1 :=
        handleTap e (with_lastTapRef (Some {| time := t; x := x1 |}) a) w in
      calls <$> r0.1 = calls <$> r1.1
      ∧ videoRef <$> r0.1 = videoRef <$> r1.1
      ∧ ui <$> r0.1 = ui <$> r1.1
      ∧ store <$> r0.1 = store <$> r1.1
      ∧ timers <$> r0.1 = timers <$> r1.1
      ∧ r0.2 = r1.2.
Proof.
  split_and!; try by vm_compute.
  intros e a w t x0 x1. rw /handleTap /mbind /M_bind /=.
  destruct (tap_x e) as [x|]; [|done].
  destruct (containerRef a) as [rect|]; [|done].
  case_bool_decide.
  - rw /seek /=. by destruct (videoRef a).
  - destruct (isPlaying (ui a)); [|rw /togglePlay /=].
    + rw /handleMouseMove /=. by destruct (controlsTimeoutRef a).
    + destruct (videoRef a) as [el|]; [|done]. by destruct (Dom.paused el).
Qed.

End taps.

(** * The theorems at work on sample data *)

Section samples.
#[local] Open Scope float_scope.
Import Samples.

(** C1 on a full catalog: the new item goes in front, the last entry goes. *)
Lemma addVideo_bounded_unique_recent_witness :
  ∃ kept oldest,
    videos full = kept ++ [oldest]
    ∧ videos (addVideo a full) = a :: kept.
Proof.
  destruct (addVideo_bounded_unique_recent full a [])
    as (_ & _ & _ & _ & _ & _ & _ & H).
  apply H; [reflexivity|]. apply (bool_decide_unpack _). by vm_compute.
Defined.

(** C3 on the catalog [b; a]: progress on [a] gives [a] the position and
    the reading of the clock, and leaves [b] as it is. *)
Lemma updateVideoProgress_frame_witness :
  videos (updateVideoProgress "a" 12.5
            (addVideo b (addVideo a initial)) world).1 !! 1%nat
  = Some {| id := "a"; title := "a"; source := "blob:a"; type := local;
            thumbnail := None; subtitleUrl := None; metadata := None;
            addedAt := 0; lastPlayedAt := Some 1000%Z;
            progress := Some 12.5; favorite := None |}
  ∧ videos (updateVideoProgress "a" 12.5
              (addVideo b (addVideo a initial)) world).1 !! 0%nat = Some b.
Proof.
  destruct (updateVideoProgress_frame
              (addVideo b (addVideo a initial)) "a" 12.5 world)
    as (_ & _ & _ & H & _ & _ & _ & Hset).
  split.
  - apply (λ Hnd, Hset Hnd 1%nat a); [|reflexivity..].
    apply (bool_decide_unpack _). by vm_compute.
  - apply H; [reflexivity|discriminate].
Defined.

(** C7: removing the selected item clears the selection. *)
Lemma removeVideo_selection_witness :
  currentVideoId (removeVideo "(" full) = None.
Proof.
  destruct (removeVideo_selection full "(") as (_ & _ & _ & H & _).
  apply H. reflexivity.
Defined.

(** C4 on the one-item catalog [a]: the snapshot holds [a] without its
    object URL. *)
Lemma partialize_blanks_source_witness :
  snap_videos (partialize (addVideo a initial)) !! 0%nat
  = Some (with_source "" a)
  ∧ source (with_source "" a) = "".
Proof.
  destruct (partialize_blanks_source (addVideo a initial)
              ClearHistory [] [] world) as (_ & _ & H & _).
  destruct (H 0%nat a eq_refl) as (H1 & H2 & _). by split.
Defined.

(** C5 on a file that cannot be decoded. *)
Lemma generateThumbnail_resolves_witness :
  (Helpers.generateThumbnail noise world).1 = fulfilled Helpers.degraded.
Proof.
  destruct (generateThumbnail_resolves noise world [] [] [])
    as (_ & H & _).
  apply H. reflexivity.
Defined.

(** C10 on one file and on two. *)
Lemma handleLocalUpload_selection_witness :
  (∃ v, currentVideoId
          (Uploader.store
             (Uploader.handleLocalUpload [movie]
                {| Uploader.isLoading := false; Uploader.store := full |}
                world).1) = Some (id v)
        ∧ id v = "a-uuid")
  ∧ currentVideoId
      (Uploader.store
         (Uploader.handleLocalUpload [movie; noise]
            {| Uploader.isLoading := false; Uploader.store := full |}
            world).1) = Some "(".
Proof.
  split.
  - destruct (handleLocalUpload_selection [movie]
                {| Uploader.isLoading := false; Uploader.store := full |}
                world) as (H & _).
    destruct (H movie eq_refl eq_refl) as (v & _ & _ & Hid & Hc & _).
    by exists v.
  - destruct (handleLocalUpload_selection [movie; noise]
                {| Uploader.isLoading := false; Uploader.store := full |}
                world) as (_ & _ & H & _).
    destruct H as [H _]; [simpl; lia|]. exact H.
Defined.

(** C8 on a volume of one half. *)
Lemma updateSettings_valid_witness :
  Player.valid
    (settings (updateSettings
                 {| volume' := Some 0.5; playbackRate' := Some 1.5;
                    isMuted' := None; isTheaterMode' := None;
                    quality' := None |} initial)) = true.
Proof.
  destruct (updateSettings_valid
              {| volume' := Some 0.5; playbackRate' := Some 1.5;
                 isMuted' := None; isTheaterMode' := None;
                 quality' := None |} initial 1 0.5 player)
    as (_ & H & _).
  - reflexivity.
  - intros v [= <-]. reflexivity.
  - intros r [= <-]. reflexivity.
  - exact H.
Defined.


(** X29: a tap on the paused player bound to [a] starts it, and 400 ms
    of silence add nothing; a second tap on the left half 100 ms after
    the first seeks by -10 s, once, and leaves no tap recorded. *)
Lemma handleTap_double_or_single_witness :
  (∃ a1,
     (Player.handleTap (Player.MouseEvent 100) bound world).1 = Some a1
     ∧ Player.calls a1 = [Player.video_play]
     ∧ Player.calls (Player.elapse 400 a1) = [Player.video_play])
  ∧ ∃ a2,
      (Player.handleTap (Player.MouseEvent 120) tapped world1).1 = Some a2
      ∧ Player.lastTapRef a2 = None
      ∧ Player.calls a2
        = [Player.video_play; Player.video_set_currentTime (-10)].
Proof.
  split.
  - destruct (handleTap_double_or_single (Player.MouseEvent 100) bound
                world 100 rect (element bound)) as [_ H];
      [reflexivity..|].
    destruct H as (a1 & H1 & _ & _ & H2 & _ & H3); [by left|].
    exists a1. split; [exact H1|].
    destruct (H2 eq_refl) as [Hc _]. destruct (H3 400%Z) as [Hq _].
    split; [exact Hc|]. by rw Hq Hc.
  - destruct (handleTap_double_or_single (Player.MouseEvent 120) tapped
                world1 120 rect (element tapped)) as [H _];
      [reflexivity..|].
    destruct (H {| Player.time := 1000; Player.x := 100 |})
      as (a2 & H1 & H2 & H3 & _); [reflexivity|reflexivity|].
    exists a2. split; [exact H1|]. split; [exact H2|]. exact H3.
Defined.

End samples.

(** * More of the store *)

Section store_more.
Implicit Types (v : VideoItem) (vs : list VideoItem) (st : VideoStore)
  (i : string) (w : World).

Lemma stamp_id i p v w : id (stamp i p v w).1 = id v.
Proof. rw /stamp. by case_decide. Qed.

Lemma stamp_mapM_ids i p vs w : ids (mapM (stamp i p) vs w).1 = ids vs.
Proof.
  revert w. induction vs as [|v vs IH]; intros w; [done|].
  rw /= /mbind /M_bind. pose proof (stamp_id i p v w) as Hv.
  destruct (stamp i p v w) as [v' w1]. pose proof (IH w1) as Hvs.
  destruct (mapM (stamp i p) vs w1) as [vs' w2]. simpl in *.
  by rw /ids /= Hv -/(ids vs') Hvs.
Qed.

Lemma updateVideoProgress_ids i p st w :
  ids (videos (updateVideoProgress i p st w).1) = ids (videos st).
Proof.
  rw /updateVideoProgress /mbind /M_bind.
  pose proof (stamp_mapM_ids i p (videos st) w) as H.
  by destruct (mapM (stamp i p) (videos st) w).
Qed.

Lemma toggleFavorite_ids i st : ids (videos (toggleFavorite i st)) = ids (videos st).
Proof.
  rw /toggleFavorite /ids /= -list_fmap_compose. apply list_fmap_ext.
  intros k v _. simpl. by case_decide.
Qed.

Lemma act_tidy (a : Action) st w : tidy st → tidy (act a st w).1.
Proof.
  rw /tidy. intros [Hlen Hnd]. destruct a as [v|i|i|i p|i|n|]; simpl.
  - split; [apply addVideo_length|by apply addVideo_NoDup].
  - split; [|by apply NoDup_ids_filter].
    etrans; [apply length_filter|done].
  - done.
  - split.
    + by rw -(length_fmap id) -/(ids _) updateVideoProgress_ids
           /ids length_fmap.
    + by rw updateVideoProgress_ids.
  - split; [by rw /= length_fmap|by rw toggleFavorite_ids].
  - done.
  - split; [simpl; lia|constructor].
Qed.

(** X1. Whatever actions the store is given, in whatever order, a catalog
    of at most 50 entries with distinct identifiers stays one. *)
Theorem run_keeps_tidy (l : list Action) st (log : list Snapshot) w :
  tidy st → tidy (run l (st, log) w).1.1.
Proof.
  revert st log w. induction l as [|a l IH]; intros st log w H; [done|].
  rw /= /mbind /M_bind /= /persisted /mbind /M_bind /=.
  pose proof (act_tidy a st w H) as H'.
  destruct (act a st w) as [st' w']. by apply IH.
Qed.

(** X2. [toggleFavorite(id)] changes the favorite flag of the entries
    with the identifier and nothing else; a missing flag counts as off.
    Toggling twice gives every entry its flag back as a boolean, so an
    entry whose flag was missing now carries [false]. *)
Theorem toggleFavorite_frame st i :
  ids (videos (toggleFavorite i st)) = ids (videos st)
  ∧ currentVideoId (toggleFavorite i st) = currentVideoId st
  ∧ settings (toggleFavorite i st) = settings st
  ∧ (∀ k v, videos st !! k = Some v →
       videos (toggleFavorite i st) !! k
       = Some (if decide (id v = i) then with_favorite_flipped v else v)
       ∧ videos (toggleFavorite i (toggleFavorite i st)) !! k
         = Some (if decide (id v = i)
                 then with_favorite_flipped (with_favorite_flipped v)
                 else v))
  ∧ (∀ v, favorite (with_favorite_flipped v)
          = Some (negb (AppView.is_favorite v))
          ∧ favorite (with_favorite_flipped (with_favorite_flipped v))
            = Some (AppView.is_favorite v)
          ∧ with_favorite_flipped v
            = {| id := id v; title := title v; source := source v;
                 type := type v; thumbnail := thumbnail v;
                 subtitleUrl := subtitleUrl v; metadata := metadata v;
                 addedAt := addedAt v; lastPlayedAt := lastPlayedAt v;
                 progress := progress v;
                 favorite := Some (negb (AppView.is_favorite v)) |}).
Proof.
  split_and!; [apply toggleFavorite_ids|done|done| |].
  - intros k v Hv. rw /toggleFavorite /= !list_lookup_fmap Hv /=.
    split; [done|]. f_equal.
    destruct (decide (id v = i)) as [Hi|Hi]; simpl;
      [by rw decide_True|by rw decide_False].
  - intros v. rw /AppView.is_favorite /=. split_and!; [done| |done].
    by rw negb_involutive.
Qed.

Lemma find_filter_other i j vs :
  i ≠ j →
  snd <$> list_find (λ v, id v = i) (filter (λ v, id v ≠ j) vs)
  = snd <$> list_find (λ v, id v = i) vs.
Proof.
  intros Hij. induction vs as [|v vs IH]; [done|].
  destruct (decide (id v = j)) as [Hj|Hj].
  - rw filter_cons_False; [|naive_solver]. rw IH /= decide_False; [|congruence].
    by destruct (list_find _ vs) as [[??]|].
  - rw filter_cons_True; [|done]. simpl. case_decide; [done|].
    destruct (list_find _ (filter _ _)) as [[k1 u1]|],
      (list_find _ vs) as [[k2 u2]|]; simpl in *; congruence.
Qed.

Lemma find_absent i vs :
  i ∉ ids vs → list_find (λ v, id v = i) vs = None.
Proof.
  intros Hi. apply list_find_None, Forall_forall. intros v Hv <-.
  apply Hi. by apply list_elem_of_fmap_2.
Qed.

(** X3. The item the page plays is [videos.find(v => v.id ===
    currentVideoId)].  A selection that names no entry, which
    [setCurrentVideo] accepts, gives none; a selection that names an
    entry gives an entry of that identifier.  Removing the selected item
    leaves none, and removing any other item leaves the played item as it
    was. *)
Theorem currentVideo_lookup st i j :
  (i ∉ ids (videos st) →
   AppView.currentVideo (setCurrentVideo (Some i) st) = None)
  ∧ (i ∈ ids (videos st) →
     ∃ v, AppView.currentVideo (setCurrentVideo (Some i) st) = Some v
          ∧ id v = i ∧ v ∈ videos st)
  ∧ AppView.currentVideo (setCurrentVideo None st) = None
  ∧ (currentVideoId st = Some i →
     AppView.currentVideo (removeVideo i st) = None)
  ∧ (currentVideoId st = Some i → i ≠ j →
     AppView.currentVideo (removeVideo j st) = AppView.currentVideo st).
Proof.
  split_and!.
  - intros Hi. by rw /AppView.currentVideo /= find_absent.
  - intros (v & Hid & Hv)%list_elem_of_fmap.
    rw /AppView.currentVideo /=.
    destruct (list_find (λ v, id v = i) (videos st)) as [[k u]|] eqn:E.
    + apply list_find_Some in E as (Hk & Hu & _). exists u.
      split_and!; [done|done|]. by eapply list_elem_of_lookup_2.
    + apply list_find_None in E. rw Forall_forall in E.
      by destruct (E v Hv).
  - done.
  - intros Hs. by rw /AppView.currentVideo /= Hs decide_True.
  - intros Hs Hij. rw /AppView.currentVideo /= Hs decide_False; [|congruence].
    by apply find_filter_other.
Qed.

End store_more.

(** * The projections of the catalog *)

Section projections.
Import AppView.
Implicit Types (v u : VideoItem) (vs l : list VideoItem) (q s : string).

Lemma insert_recent_Permutation v l : insert_recent v l ≡ₚ v :: l.
Proof.
  induction l as [|u l IH]; [done|]. simpl. case_decide; [done|].
  by rw IH Permutation_swap.
Qed.

Lemma sort_recent_Permutation l : sort_recent l ≡ₚ l.
Proof.
  induction l as [|v l IH]; [done|].
  by rw /= insert_recent_Permutation -/(sort_recent l) IH.
Qed.

Lemma insert_recent_sorted v l :
  StronglySorted (λ a b, (played b ≤ played a)%Z) l →
  StronglySorted (λ a b, (played b ≤ played a)%Z) (insert_recent v l).
Proof.
  induction 1 as [|u l Hl IH Hu]; simpl.
  { repeat constructor. }
  case_decide as Hc.
  - constructor; [by constructor|]. constructor; [done|].
    eapply Forall_impl; [exact Hu|]. simpl. intros; lia.
  - constructor; [done|].
    rw (insert_recent_Permutation v l). constructor; [lia|done].
Qed.

Lemma sort_recent_sorted l :
  StronglySorted (λ a b, (played b ≤ played a)%Z) (sort_recent l).
Proof.
  induction l as [|v l IH]; [constructor|]. by apply insert_recent_sorted.
Qed.

Lemma insert_recent_ties (t : Z) v l :
  filter (λ x, played x = t) (insert_recent v l)
  = filter (λ x, played x = t) (v :: l).
Proof.
  induction l as [|u l IH]; [done|]. simpl. case_decide as Hc; [done|].
  rw (filter_cons _ u) IH !filter_cons.
  repeat case_decide; try done; lia.
Qed.

Lemma sort_recent_ties (t : Z) l :
  filter (λ x, played x = t) (sort_recent l) = filter (λ x, played x = t) l.
Proof.
  induction l as [|v l IH]; [done|].
  rw /= insert_recent_ties -/(sort_recent l) !filter_cons IH. done.
Qed.

Lemma startsWith_app q s : Text.startsWith q (String.append q s) = true.
Proof.
  induction q as [|c q IH]; [done|].
  change (Text.startsWith (String c q) (String c (q +:+ s)) = true).
  by rw /= decide_True.
Qed.

Lemma includes_app s1 q s2 :
  Text.includes q (String.append s1 (String.append q s2)) = true.
Proof.
  induction s1 as [|c s1 IH].
  - pose proof (startsWith_app q s2) as H. rw /=.
    destruct (String.append q s2) as [|c r]; [done|].
    change (Text.startsWith q (String c r) || Text.includes q r = true).
    by rw H.
  - change (Text.startsWith q
              (String c (String.append s1 (String.append q s2)))
            || Text.includes q (String.append s1 (String.append q s2))
            = true).
    by rw IH orb_true_r.
Qed.

Lemma trimStart_suffix s : ∃ s1, s = String.append s1 (Text.trimStart s).
Proof.
  induction s as [|c s [s1 IH]]; [by exists ""|]. simpl.
  destruct (Text.is_space c); [|by exists ""].
  exists (String c s1).
  change (String c s = String c (s1 +:+ Text.trimStart s)). by f_equal.
Qed.

Lemma trimEnd_prefix s : ∃ s2, s = String.append (Text.trimEnd s) s2.
Proof.
  induction s as [|c s [s2 IH]]; [by exists ""|]. simpl.
  destruct (Text.trimEnd s) as [|c' r] eqn:E.
  - destruct (Text.is_space c); [by exists (String c s)|].
    exists s2. change (String c s = String c ("" +:+ s2)). by f_equal.
  - exists s2. change (String c s = String c (String c' r +:+ s2)).
    by f_equal.
Qed.

Lemma includes_trim s : Text.includes (Text.trim s) s = true.
Proof.
  destruct (trimStart_suffix s) as [s1 H1].
  destruct (trimEnd_prefix (Text.trimStart s)) as [s2 H2].
  rw {2}H1 {1}H2. apply includes_app.
Qed.

Lemma lower_idemp c : lower (lower c) = lower c.
Proof. destruct c as [[] [] [] [] [] [] [] []]; by vm_compute. Qed.

Lemma toLowerCase_idemp s : toLowerCase (toLowerCase s) = toLowerCase s.
Proof. induction s as [|c s IH]; [done|]. by rw /= lower_idemp IH. Qed.

Lemma lower_space c : Text.is_space c = true → lower c = c.
Proof. destruct c as [[] [] [] [] [] [] [] []]; by vm_compute. Qed.

Lemma white_trim s : white s = true → Text.trim (toLowerCase s) = "".
Proof.
  induction s as [|c s IH]; [done|]. simpl.
  intros [Hc Hs]%andb_true_iff. rw (lower_space c Hc) /Text.trim /= Hc.
  by apply IH.
Qed.

Lemma displayVideos_base view vs :
  displayVideos view "" vs
  = match view with
    | collection => filter (λ v, is_favorite v = true) vs
    | recent => sort_recent vs
    | library => vs
    end.
Proof. done. Qed.

(** X4. What the page lists is taken from the catalog: every listed item
    is an item of the catalog, no more often than it is there.  A query
    of white space only lists what the empty query lists, which in the
    library view is the catalog itself. *)
Theorem displayVideos_from_catalog (view : ViewType) q vs :
  (displayVideos view q vs ⊆+ vs)
  ∧ (white q = true → displayVideos view q vs = displayVideos view "" vs)
  ∧ displayVideos library "" vs = vs.
Proof.
  split_and!; [|intros H%white_trim; by rw /displayVideos H|done].
  assert (match view with
          | collection => filter (λ v, is_favorite v = true) vs
          | recent => sort_recent vs
          | library => vs
          end ⊆+ vs) as Hbase.
  { destruct view; [done| |].
    - apply sublist_submseteq, sublist_filter.
    - apply Permutation_submseteq, sort_recent_Permutation. }
  rw /displayVideos. case_decide; [done|].
  etrans; [|exact Hbase]. apply sublist_submseteq, sublist_filter.
Qed.

(** X5. The search does not look at the case of the query, and it finds
    an item by its own title: in the library view, the title of an item
    of the catalog as query lists that item. *)
Theorem displayVideos_search (view : ViewType) q vs :
  displayVideos view (toLowerCase q) vs = displayVideos view q vs
  ∧ ∀ v, v ∈ vs → v ∈ displayVideos library (title v) vs.
Proof.
  split; [by rw /displayVideos toLowerCase_idemp|].
  intros v Hv. rw /displayVideos. case_decide; [done|].
  apply list_elem_of_filter. split; [|done].
  by rw /matches includes_trim.
Qed.

Lemma collection_after_toggle i vs :
  Forall (λ u, is_favorite u = false) vs →
  filter (λ v, is_favorite v = true)
    ((λ v, if decide (id v = i) then with_favorite_flipped v else v) <$> vs)
  = with_favorite_flipped <$> filter (λ v, id v = i) vs.
Proof.
  induction 1 as [|u vs Hu Hvs IH]; [done|].
  rw fmap_cons (filter_cons _ u) filter_cons IH.
  destruct (decide (id u = i)) as [Hi|Hi].
  - rw decide_True //. by rw /is_favorite /= -/(is_favorite u) Hu.
  - rw decide_False //. by rw Hu.
Qed.

Lemma filter_id_unique (k : nat) v vs :
  NoDup (ids vs) → vs !! k = Some v → filter (λ u, id u = id v) vs = [v].
Proof.
  revert k. induction vs as [|u vs IH]; intros k Hnd Hk; [done|].
  rw /ids fmap_cons in Hnd. apply NoDup_cons in Hnd as [Hu Hnd].
  destruct k as [|k]; simpl in Hk.
  - injection Hk as ->. rw filter_cons_True //.
    by rw ids_filter_same_absent.
  - rw filter_cons_False; [by eapply IH|].
    intros Heq. apply Hu. rw Heq. apply list_elem_of_fmap_2.
    by eapply list_elem_of_lookup_2.
Qed.

(** X6. The collection view lists the favorites, in catalog order, and
    nothing else.  On a catalog with distinct identifiers and no
    favorite, [toggleFavorite] on an entry makes the view list that
    entry, flagged, alone. *)
Theorem displayVideos_collection (st : VideoStore) (k : nat) v :
  (∀ u, u ∈ displayVideos collection "" (videos st)
        ↔ (u ∈ videos st ∧ is_favorite u = true))
  ∧ displayVideos collection "" (videos st) `sublist_of` videos st
  ∧ (NoDup (ids (videos st)) →
     Forall (λ u, is_favorite u = false) (videos st) →
     videos st !! k = Some v →
     displayVideos collection "" (videos (toggleFavorite (id v) st))
     = [with_favorite_flipped v]).
Proof.
  split_and!.
  - intros u. rw displayVideos_base list_elem_of_filter.
    split; intros [? ?]; by split.
  - apply sublist_filter.
  - intros Hnd Hfav Hk.
    rw displayVideos_base /toggleFavorite /= collection_after_toggle //.
    by rw (filter_id_unique k).
Qed.

(** X7. The history view is the catalog rearranged by last-played time,
    latest first, an item never played counting as played at time 0;
    items with the same time keep the order they have in the catalog. *)
Theorem displayVideos_recent vs (t : Z) :
  (displayVideos recent "" vs ≡ₚ vs)
  ∧ StronglySorted (λ a b, (played b ≤ played a)%Z)
      (displayVideos recent "" vs)
  ∧ filter (λ v, played v = t) (displayVideos recent "" vs)
    = filter (λ v, played v = t) vs.
Proof.
  rw displayVideos_base. split_and!.
  - apply sort_recent_Permutation.
  - apply sort_recent_sorted.
  - apply sort_recent_ties.
Qed.

(** X8. The list beside the player never holds the item that is playing,
    holds at most 8 items, and holds them in the order of the listing
    they are taken from. *)
Theorem nextInVault_others (shown : list VideoItem) (current : VideoItem) :
  (id current ∉ ids (nextInVault shown current))
  ∧ length (nextInVault shown current) ≤ 8
  ∧ nextInVault shown current `sublist_of` shown
  ∧ (length (filter (λ v, id v ≠ id current) shown) ≤ 8 →
     ∀ v, v ∈ shown → id v ≠ id current → v ∈ nextInVault shown current).
Proof.
  rw /nextInVault. split_and!.
  - intros Hin. apply (ids_filter_absent (id current) shown).
    refine (elem_of_sublist _ _ _ Hin _).
    apply fmap_sublist, sublist_take.
  - rw length_take. lia.
  - etrans; [apply sublist_take|apply sublist_filter].
  - intros Hlen v Hv Hne. rw take_ge //. by apply list_elem_of_filter.
Qed.

End projections.

(** * Progress and the history view *)

Section history.
Import AppView.
Implicit Types (v u : VideoItem) (vs l : list VideoItem) (i : string).

Lemma head_insert_recent v l :
  (∀ u, head l = Some u → (played u ≤ played v)%Z) →
  head (insert_recent v l) = Some v.
Proof.
  destruct l as [|u l]; [done|]. intros H. simpl.
  rw decide_True //. by apply H.
Qed.

Lemma head_insert_recent_later v u l :
  (played v < played u)%Z → head (insert_recent v (u :: l)) = Some u.
Proof. intros H. rw /= decide_False //. lia. Qed.

(** The entry played strictly later than every other one comes first. *)
Lemma head_sort_recent v l :
  NoDup (ids l) → v ∈ l →
  (∀ u, u ∈ l → id u ≠ id v → (played u < played v)%Z) →
  head (sort_recent l) = Some v.
Proof.
  induction l as [|x l IH]; intros Hnd Hv Hlt;
    [by apply elem_of_nil in Hv|].
  rw /ids fmap_cons in Hnd. apply NoDup_cons in Hnd as [Hx Hnd].
  simpl. fold (sort_recent l).
  destruct (decide (id x = id v)) as [Heq|Hne].
  - assert (x = v) as ->.
    { apply elem_of_cons in Hv as [->|Hv]; [done|].
      destruct Hx. rw Heq. by apply list_elem_of_fmap_2. }
    apply head_insert_recent. intros u Hu.
    assert (u ∈ l) as Hul.
    { rw -(sort_recent_Permutation l). by apply head_Some_elem_of. }
    assert (id u ≠ id v) as Hne.
    { intros Hid. apply Hx. rw -Hid. by apply list_elem_of_fmap_2. }
    pose proof (Hlt u (list_elem_of_further _ _ _ Hul) Hne). lia.
  - apply elem_of_cons in Hv as [->|Hv]; [done|].
    assert (head (sort_recent l) = Some v) as Hh.
    { apply IH; [done|done|]. intros u Hu. apply Hlt. by right. }
    destruct (sort_recent l) as [|y l']; [done|]. injection Hh as ->.
    apply head_insert_recent_later, Hlt; [by left|done].
Qed.

(** X9. A progress tick puts the item on top of the history view: with
    distinct identifiers, and a clock that reads later than every
    last-played time of the catalog, the view after
    [updateVideoProgress(id, p)] starts with the entry of that
    identifier, carrying [p] and the reading of the clock. *)
Theorem progress_heads_history
  (st : VideoStore) i (p : float) (w : World) (k : nat) v :
  NoDup (ids (videos st)) →
  videos st !! k = Some v → id v = i →
  (∀ u, u ∈ videos st → (played u < clock w (ticks w))%Z) →
  head (displayVideos recent "" (videos (updateVideoProgress i p st w).1))
  = Some (with_progress p (clock w (ticks w)) v).
Proof.
  intros Hnd Hk Hi Hlt.
  pose proof (updateVideoProgress_ids i p st w) as Hids.
  pose proof (stamp_mapM_spec i p (videos st) w) as Hs.
  rw /updateVideoProgress /mbind /M_bind /= in Hids |- *.
  destruct (mapM (stamp i p) (videos st) w) as [vs' w'].
  simpl in *. destruct Hs as (Hlen & _ & Htk & Hspec).
  assert (i ∈ ids (videos st)) as Hin.
  { rw -Hi. apply list_elem_of_fmap_2. by eapply list_elem_of_lookup_2. }
  rw NoDup_ids_count // in Htk.
  assert (vs' !! k = Some (with_progress p (clock w (ticks w)) v)) as Hk'.
  { destruct (Hspec k v Hk) as [_ H]. destruct (H Hi) as (n & Hn & ->).
    do 3 f_equal. lia. }
  rw displayVideos_base. apply head_sort_recent.
  - by rw Hids.
  - by eapply list_elem_of_lookup_2.
  - intros u [j Hj]%list_elem_of_lookup Hne. simpl in *.
    destruct (videos st !! j) as [u0|] eqn:Hj0.
    + destruct (Hspec j u0 Hj0) as [H1 H2].
      destruct (decide (id u0 = i)) as [Hu0|Hu0].
      * destruct (H2 Hu0) as (n & _ & Hn). rw Hj in Hn.
        injection Hn as Hn. subst u. destruct Hne. simpl. congruence.
      * rw (H1 Hu0) in Hj. injection Hj as Hj. subst u0.
        apply Hlt. by eapply list_elem_of_lookup_2.
    + apply lookup_ge_None in Hj0. apply lookup_lt_Some in Hj. lia.
Qed.

End history.

(** * File names *)

Section names.
Implicit Types (c : ascii) (s : string) (l : list string).

Lemma append_cons a (s1 s2 : string) :
  String a s1 +:+ s2 = String a (s1 +:+ s2).
Proof. done. Qed.

Lemma append_assoc (s1 s2 s3 : string) :
  (s1 +:+ s2) +:+ s3 = s1 +:+ (s2 +:+ s3).
Proof.
  induction s1 as [|a s1 IH]; [done|]. by rw !append_cons IH.
Qed.

Lemma split_cons c a s :
  split c (String a s)
  = if decide (a = c) then "" :: split c s
    else match split c s with
         | h :: t => String a h :: t
         | [] => [String a ""]
         end.
Proof. done. Qed.

Lemma split_nonempty c s : split c s ≠ [].
Proof.
  induction s as [|a s IH]; [done|]. rw split_cons.
  case_decide; [done|]. by destruct (split c s).
Qed.

Lemma split_no_separator c s : Forall (λ x, occurs c x = false) (split c s).
Proof.
  induction s as [|a s IH]; [by repeat constructor|]. rw split_cons.
  pose proof (split_nonempty c s) as Hne.
  case_decide as Ha; [by constructor|].
  destruct (split c s) as [|h t]; [done|].
  apply Forall_cons in IH as [Hh Ht]. constructor; [|done].
  by rw /= Hh bool_decide_false.
Qed.

(** Round trip: the pieces put back together with the separator. *)
Lemma join_split c s : join c (split c s) = s.
Proof.
  induction s as [|a s IH]; [done|]. rw split_cons.
  pose proof (split_nonempty c s) as Hne.
  case_decide as Ha.
  - subst a. destruct (split c s) as [|h t]; [done|]. 
    change (join c ("" :: h :: t)) with ("" +:+ String c (join c (h :: t))).
    by rw IH.
  - destruct (split c s) as [|h t]; [done|]. rw -IH.
    destruct t as [|h' t]; [done|].
    change (join c (String a h :: h' :: t))
      with (String a h +:+ String c (join c (h' :: t))).
    by rw append_cons.
Qed.

Lemma split_plain c s : occurs c s = false → split c s = [s].
Proof.
  induction s as [|a s IH]; [done|]. rw /= orb_false_iff.
  intros [Ha%bool_decide_eq_false Hs]. rw decide_False // IH //.
Qed.

Lemma join_snoc c l x :
  l ≠ [] → join c (l ++ [x]) = join c l +:+ String c x.
Proof.
  induction l as [|y l IH]; [done|]. intros _.
  destruct l as [|z l]; [done|].
  change (join c ((y :: z :: l) ++ [x]))
    with (y +:+ String c (join c ((z :: l) ++ [x]))).
  rw IH //.
  change (join c (y :: z :: l)) with (y +:+ String c (join c (z :: l))).
  by rw append_assoc append_cons.
Qed.

(** X10. How an imported item is named.  The title is the file name up
    to its first dot, and the format tag is what follows its last dot; a
    name without a dot is title and format tag at once.  [scanFolder]
    gives the same title and the same tag in lower case. *)
Theorem newVideo_names
  (file : Helpers.File) (t : Helpers.Thumbnail) (i src : string) (now : Z) :
  let v := Uploader.newVideo file t i src now in
  let name := Helpers.name file in
  occurs "." (title v) = false
  ∧ (∃ rest, name = title v +:+ rest
             ∧ (rest = "" ∨ ∃ r, rest = String "." r))
  ∧ (∃ f, metadata v ≫= format = Some f
          ∧ occurs "." f = false
          ∧ (name = f ∨ ∃ pre, name = pre +:+ String "." f)
          ∧ metadata (Scan.scanned file t i src now) ≫= format
            = Some (toLowerCase f))
  ∧ title (Scan.scanned file t i src now) = title v
  ∧ (occurs "." name = false →
     title v = name ∧ metadata v ≫= format = Some name).
Proof.
  intros v name. subst v name. rw /= /Scan.ext_of.
  generalize (Helpers.name file). intros name.
  pose proof (split_nonempty "." name) as Hne.
  pose proof (split_no_separator "." name) as Hsep.
  pose proof (join_split "." name) as Hjoin.
  split_and!.
  - destruct (split "." name) as [|h tl]; [done|].
    by apply Forall_cons in Hsep as [? _].
  - destruct (split "." name) as [|h tl]; [done|]. simpl.
    destruct tl as [|h' tl].
    + exists "". split; [|by left]. rw -Hjoin /=.
      clear. induction h as [|a h IH]; [done|]. by rw append_cons -IH.
    + exists (String "." (join "." (h' :: tl))). split; [by rw -Hjoin|].
      right. by eexists.
  - destruct (last (split "." name)) as [f|] eqn:Hl.
    + exists f. apply last_Some in Hl as [l' Hl]. rw Hl in Hsep Hjoin.
      apply Forall_app in Hsep as [_ [Hf _]%Forall_cons].
      split_and!; [done|done| |done].
      destruct l' as [|y l']; [by left|]. right.
      exists (join "." (y :: l')). by rw -Hjoin join_snoc.
    + apply last_None in Hl. by destruct Hne.
  - done.
  - intros Hplain. by rw (split_plain "." name Hplain).
Qed.

End names.

(** * Batches of files *)

Section batches.
Import Uploader.
Implicit Types (file : Helpers.File) (files : list Helpers.File)
  (st : VideoStore) (w : World).

(** One import on a host with [crypto.randomUUID], in full. *)
Lemma import_secure_full n file st w :
  secure w = true →
  ∃ t,
    import n file st w
    = (Some (let v := newVideo file t (uuid w (uuids w))
                        (objectURL w (S (blobs w))) (clock w (ticks w)) in
             if decide (n = 1)
             then setCurrentVideo (Some (id v)) (addVideo v st)
             else addVideo v st),
       {| clock := clock w; ticks := S (ticks w); secure := secure w;
          uuid := uuid w; uuids := S (uuids w); objectURL := objectURL w;
          blobs := S (S (blobs w));
          revoked := objectURL w (blobs w) :: revoked w |})
    ∧ (Helpers.media file = Helpers.undecodable → t = Helpers.degraded).
Proof.
  intros Hs. destruct (generateThumbnail_spec file w) as (t & Ht & Hm).
  exists t. split.
  - by rw /import /mbind /M_bind Ht /= /crypto_randomUUID /= Hs /=.
  - intros Hu. by rw Hu in Hm.
Qed.

Lemma addVideos_videos l st1 st2 :
  videos st1 = videos st2 →
  videos (addVideos l st1) = videos (addVideos l st2).
Proof.
  revert st1 st2. induction l as [|v l IH]; intros st1 st2 H; [done|].
  apply IH. by rw /addVideo /= H.
Qed.

Lemma for_of_secure n files st w :
  secure w = true →
  ∃ items,
    videos (for_of n files st w).1.1 = videos (addVideos items st)
    ∧ (for_of n files st w).1.2 = true
    ∧ ids items = uuid w <$> seq (uuids w) (length files)
    ∧ secure (for_of n files st w).2 = true
    ∧ uuid (for_of n files st w).2 = uuid w
    ∧ uuids (for_of n files st w).2 = uuids w + length files
    ∧ ticks (for_of n files st w).2 = ticks w + length files
    ∧ blobs (for_of n files st w).2 = blobs w + 2 * length files
    ∧ length (revoked (for_of n files st w).2)
      = length (revoked w) + length files.
Proof.
  revert st w. induction files as [|file files IH]; intros st w Hs.
  { exists []. simpl. split_and!; try done; lia. }
  destruct (import_secure_full n file st w Hs) as (t & Hi & _).
  rw /= /mbind /M_bind Hi.
  set (v := newVideo file t _ _ _).
  set (st1 := if decide (n = 1) then _ else _).
  set (w1 := Build_World _ _ _ _ _ _ _ _).
  destruct (IH st1 w1 Hs) as (items & Hv & Hc & Hids & H1 & H2 & H3 & H4 & H5 & H6).
  exists (v :: items). simpl in *.
  split_and!; try done; try lia.
  - rw Hv. apply addVideos_videos. rw /st1. by case_decide.
  - f_equal. by rw Hids.
Qed.

(** X11. A file that cannot be decoded is imported all the same: on a
    host with [crypto.randomUUID] the item made of it goes in front of
    the catalog with an empty preview, zero duration and dimensions, and
    the name and size of the file. *)
Theorem import_undecodable n file st w :
  secure w = true → Helpers.media file = Helpers.undecodable →
  ∃ st' v,
    (import n file st w).1 = Some st'
    ∧ head (videos st') = Some v
    ∧ id v = uuid w (uuids w)
    ∧ thumbnail v = Some ""
    ∧ metadata v
      = Some {| duration := 0; width := 0; height := 0;
                format := last (split "." (Helpers.name file));
                size := Some (Helpers.size file) |}
    ∧ source v = objectURL w (S (blobs w))
    ∧ addedAt v = clock w (ticks w).
Proof.
  intros Hs Hu. destruct (import_secure_full n file st w Hs) as (t & Hi & Ht).
  rw Hi (Ht Hu) /=. eexists _, _. split; [done|].
  split; [by case_decide|]. done.
Qed.

(** X12. A batch into an empty catalog, on a host with
    [crypto.randomUUID] whose identifiers do not repeat: every file is
    imported, in the order given, so that the catalog holds the
    identifiers latest first, the last 50 when there are more; the
    loading flag is cleared; each file costs two object URLs, of which
    the one of the thumbnail is revoked, and one reading of the clock. *)
Theorem handleLocalUpload_batch files (s : State) w :
  secure w = true → videos (store s) = [] → files ≠ [] →
  NoDup (uuid w <$> seq (uuids w) (length files)) →
  let r := handleLocalUpload files s w in
  ids (videos (store r.1))
  = take 50 (reverse (uuid w <$> seq (uuids w) (length files)))
  ∧ isLoading r.1 = false
  ∧ uuids r.2 = uuids w + length files
  ∧ ticks r.2 = ticks w + length files
  ∧ blobs r.2 = blobs w + 2 * length files
  ∧ length (revoked r.2) = length (revoked w) + length files.
Proof.
  intros Hs Hempty Hne Hnd r. subst r.
  rw /handleLocalUpload decide_False; [|by destruct files].
  rw /mbind /M_bind.
  destruct (for_of_secure (length files) files (store s) w Hs)
    as (items & Hv & Hc & Hids & _ & _ & H3 & H4 & H5 & H6).
  destruct (for_of (length files) files (store s) w) as [[st b] w'].
  simpl in *. subst b. split_and!; try done.
  rw Hv (addVideos_videos items (store s) initial) // addVideos_recent.
  rw -Hids in Hnd |- *.
  rw first_of_each_NoDup_id; [|by rw /ids fmap_reverse reverse_Permutation].
  by rw /ids fmap_take fmap_reverse.
Qed.

End batches.

(** * The folder scan *)

Section scan.
Import Scan.
Implicit Types (file : Helpers.File) (files : list Helpers.File)
  (st : VideoStore) (w : World) (e : Entry) (es : list Entry).

Lemma Entry_induction (P : Entry → Prop) :
  (∀ file, P (file_entry file)) →
  (∀ es, Forall P es → P (directory_entry es)) →
  ∀ e, P e.
Proof.
  intros Hfile Hdir. fix IH 1. intros [file|es]; [apply Hfile|].
  apply Hdir. induction es as [|e es IHes]; constructor; [apply IH|done].
Qed.

Lemma visit_directory e es st w :
  visit (directory_entry (e :: es)) st w
  = let r := visit e st w in
    match r.1.2 with
    | completed => visit (directory_entry es) r.1.1 r.2
    | _ => r
    end.
Proof.
  rw /= /mbind /M_bind. destruct (visit e st w) as [[st' o] w'].
  by destruct o.
Qed.

Lemma accepted_files_directory e es :
  accepted_files (directory_entry (e :: es))
  = accepted_files e ++ accepted_files (directory_entry es).
Proof. done. Qed.

Lemma add_all_app files1 files2 st w :
  add_all (files1 ++ files2) st w
  = let r := add_all files1 st w in
    match r.1.2 with
    | completed => add_all files2 r.1.1 r.2
    | _ => r
    end.
Proof.
  revert st w. induction files1 as [|file files1 IH]; intros st w; [done|].
  rw /= /mbind /M_bind. destruct (add_scanned file st w) as [[st' o] w'].
  destruct o; [apply IH|done..].
Qed.

(** The walk is the loop over the accepted files in the order met. *)
Lemma visit_flat e st w : visit e st w = add_all (accepted_files e) st w.
Proof.
  revert st w. induction e as [file|es IH] using Entry_induction;
    intros st w.
  - simpl. destruct (accepted file); [|done].
    rw /= /mbind /M_bind. destruct (add_scanned file st w) as [[st' o] w'].
    by destruct o.
  - revert st w. induction IH as [|e es He Hes IH]; intros st w; [done|].
    rw visit_directory accepted_files_directory add_all_app He.
    destruct (add_all (accepted_files e) st w) as [[st' o] w'].
    destruct o; [apply IH|done..].
Qed.

Lemma add_scanned_frame file st w :
  currentVideoId (add_scanned file st w).1.1 = currentVideoId st
  ∧ settings (add_scanned file st w).1.1 = settings st
  ∧ length (videos (add_scanned file st w).1.1) ≤ 50 `max` length (videos st).
Proof.
  destruct (generateThumbnail_spec file w) as (t & Ht & _).
  rw /add_scanned /mbind /M_bind Ht /= /crypto_randomUUID /=.
  destruct (secure w); [|split_and!; try done; simpl; lia].
  split_and!; try done.
  etrans; [apply (addVideo_length _ st)|lia].
Qed.

Lemma add_all_frame files st w :
  currentVideoId (add_all files st w).1.1 = currentVideoId st
  ∧ settings (add_all files st w).1.1 = settings st
  ∧ length (videos (add_all files st w).1.1) ≤ 50 `max` length (videos st).
Proof.
  revert st w. induction files as [|file files IH]; intros st w.
  { simpl. split_and!; try done; lia. }
  rw /= /mbind /M_bind.
  pose proof (add_scanned_frame file st w) as (H1 & H2 & H3).
  destruct (add_scanned file st w) as [[st' o] w']. simpl in *.
  destruct o; simpl; [|done..].
  destruct (IH st' w') as (H1' & H2' & H3'). rw H1' H2'.
  split_and!; try done. lia.
Qed.

Lemma add_scanned_secure file st w :
  secure w = true →
  ∃ t,
    add_scanned file st w
    = (addVideo (scanned file t (uuid w (uuids w))
                   (objectURL w (S (blobs w))) (clock w (ticks w))) st,
       completed,
       {| clock := clock w; ticks := S (ticks w); secure := secure w;
          uuid := uuid w; uuids := S (uuids w); objectURL := objectURL w;
          blobs := S (S (blobs w));
          revoked := objectURL w (blobs w) :: revoked w |}).
Proof.
  intros Hs. destruct (generateThumbnail_spec file w) as (t & Ht & _).
  exists t. by rw /add_scanned /mbind /M_bind Ht /= /crypto_randomUUID /= Hs.
Qed.

Lemma add_scanned_insecure file st w :
  secure w = false →
  (add_scanned file st w).1 = (st, thrown)
  ∧ blobs (add_scanned file st w).2 = S (blobs w).
Proof.
  intros Hs. destruct (generateThumbnail_spec file w) as (t & Ht & _).
  by rw /add_scanned /mbind /M_bind Ht /= /crypto_randomUUID /= Hs.
Qed.

Lemma add_all_secure files st w :
  secure w = true →
  ∃ items,
    (add_all files st w).1 = (addVideos items st, completed)
    ∧ ids items = uuid w <$> seq (uuids w) (length files)
    ∧ secure (add_all files st w).2 = true
    ∧ uuid (add_all files st w).2 = uuid w
    ∧ uuids (add_all files st w).2 = uuids w + length files
    ∧ ticks (add_all files st w).2 = ticks w + length files.
Proof.
  revert st w. induction files as [|file files IH]; intros st w Hs.
  { exists []. simpl. split_and!; try done; lia. }
  destruct (add_scanned_secure file st w Hs) as (t & Hi).
  rw /= /mbind /M_bind Hi /=.
  set (v := scanned file t _ _ _).
  set (w1 := Build_World _ _ _ _ _ _ _ _).
  destruct (IH (addVideo v st) w1 Hs) as (items & Hv & Hids & H1 & H2 & H3 & H4).
  exists (v :: items). simpl in *.
  split_and!; try done; try lia. f_equal. by rw Hids.
Qed.

Lemma add_all_insecure files st w :
  secure w = false →
  ((add_all files st w).1 = (st, thrown) ∨ (add_all files st w).1 = (st, completed))
  ∧ blobs (add_all files st w).2 ≤ S (blobs w).
Proof.
  intros Hs. destruct files as [|file files].
  { simpl. split; [by right|lia]. }
  destruct (add_scanned_insecure file st w Hs) as [H1 H2].
  rw /= /mbind /M_bind. destruct (add_scanned file st w) as [r w'].
  simpl in *. subst r. simpl. split; [by left|lia].
Qed.

Lemma add_all_settles files st w : (add_all files st w).1.2 ≠ stalled.
Proof.
  revert st w. induction files as [|file files IH]; intros st w; [done|].
  rw /= /mbind /M_bind. destruct (secure w) eqn:Hs.
  - destruct (add_scanned_secure file st w Hs) as (t & ->). apply IH.
  - destruct (add_scanned_insecure file st w Hs) as [H _].
    destruct (add_scanned file st w) as [r w']. simpl in H. by subst r.
Qed.

(** X13. The scan of a folder imports the media files of the tree below
    it, one after the other in the order the walk meets them, each
    subfolder in full before the entry after it, and it ends at the
    first import that throws.  A tree without a media file leaves the
    store and the host as they are. *)
Theorem processEntry_flat (handle : list Entry) st w :
  processEntry handle st w
  = add_all (accepted_files (directory_entry handle)) st w
  ∧ (accepted_files (directory_entry handle) = [] →
     processEntry handle st w = (st, completed, w)).
Proof.
  split; [apply visit_flat|]. intros H. by rw /processEntry visit_flat H.
Qed.

(** X14. [scanFolder] never touches the selection or the settings, and
    never leaves more than 50 entries in a catalog that had no more.
    Where the platform has no directory picker it alerts and changes
    nothing; where the picker is cancelled or refused it changes nothing
    silently.  In both cases, and after every walk, the loading flag is
    cleared. *)
Theorem scanFolder_frame (picker : Picker) (s : Uploader.State) w :
  let r := scanFolder picker s w in
  currentVideoId (Uploader.store r.1.1) = currentVideoId (Uploader.store s)
  ∧ settings (Uploader.store r.1.1) = settings (Uploader.store s)
  ∧ length (videos (Uploader.store r.1.1))
    ≤ 50 `max` length (videos (Uploader.store s))
  ∧ Uploader.isLoading r.1.1 = false
  ∧ (picker = unsupported →
     Uploader.store r.1.1 = Uploader.store s ∧ r.1.2 = true ∧ r.2 = w)
  ∧ (picker = refused →
     Uploader.store r.1.1 = Uploader.store s ∧ r.1.2 = false ∧ r.2 = w).
Proof.
  intros r. subst r. destruct picker as [| |handle]; simpl.
  1,2: split_and!; try done; lia.
  rw /mbind /M_bind /processEntry visit_flat.
  pose proof (add_all_frame (accepted_files (directory_entry handle))
                (Uploader.store s) w) as (H1 & H2 & H3).
  pose proof (add_all_settles (accepted_files (directory_entry handle))
                (Uploader.store s) w) as Hns.
  destruct (add_all _ _ w) as [[st o] w']. simpl in *.
  split_and!; try done. by destruct o.
Qed.

(** X15. On a host with [crypto.randomUUID] a scan imports every media
    file of the tree: the store is the one that many [addVideo] calls
    give, with the identifiers the host handed out in that order, and
    one reading of the clock per file.  On a host without it the scan
    ends at the first media file it meets, having generated at most one
    thumbnail and added nothing. *)
Theorem scanFolder_host (handle : list Entry) (s : Uploader.State) w :
  let r := scanFolder (picked handle) s w in
  let files := accepted_files (directory_entry handle) in
  (secure w = true →
   ∃ items,
     Uploader.store r.1.1 = addVideos items (Uploader.store s)
     ∧ ids items = uuid w <$> seq (uuids w) (length files)
     ∧ ticks r.2 = ticks w + length files)
  ∧ (secure w = false →
     Uploader.store r.1.1 = Uploader.store s ∧ blobs r.2 ≤ S (blobs w)).
Proof.
  intros r files. subst r files.
  rw /scanFolder /mbind /M_bind /processEntry visit_flat. split; intros Hs.
  - destruct (add_all_secure (accepted_files (directory_entry handle))
                (Uploader.store s) w Hs) as (items & Hr & Hids & _ & _ & _ & Ht).
    destruct (add_all _ _ w) as [r w']. simpl in *. subst r.
    by exists items.
  - destruct (add_all_insecure (accepted_files (directory_entry handle))
                (Uploader.store s) w Hs) as [Hr Hb].
    destruct (add_all _ _ w) as [r w']. simpl in *.
    by destruct Hr as [->| ->].
Qed.

End scan.

(** * More of the keyboard and the transport controls *)

Section controls.
#[local] Open Scope float_scope.
Import Player.
Implicit Types (a : App) (el : Dom.HTMLVideoElement) (tag : option string)
  (code : string).

(** X16. While the focus is in a text input or a text area, whatever the
    letter case of the tag name, no key does anything and the key event
    is left to the page; so it is for a key the player has no use for.
    Each of the seven keys it handles is consumed. *)
Theorem handleKeyDown_guard tag code a :
  (default "" (toLowerCase <$> tag) ∈ ["input"; "textarea"] →
   handleKeyDown tag code a = (a, false))
  ∧ handleKeyDown (Some "INPUT") code a = (a, false)
  ∧ handleKeyDown (Some "TEXTAREA") code a = (a, false)
  ∧ (code ∉ ["Space"; "ArrowLeft"; "ArrowRight"; "ArrowUp"; "ArrowDown";
              "KeyF"; "KeyM"] →
     handleKeyDown tag code a = (a, false))
  ∧ (default "" (toLowerCase <$> tag) ∉ ["input"; "textarea"] →
     code ∈ ["Space"; "ArrowLeft"; "ArrowRight"; "ArrowUp"; "ArrowDown";
             "KeyF"; "KeyM"] →
     (handleKeyDown tag code a).2 = true).
Proof.
  split_and!.
  - intros H. by rw /handleKeyDown decide_True.
  - done.
  - done.
  - rw !not_elem_of_cons. intros (H1 & H2 & H3 & H4 & H5 & H6 & H7 & _).
    rw /handleKeyDown. case_decide; [done|].
    by rw !decide_False.
  - intros H. rw !elem_of_cons elem_of_nil.
    intros [->|[->|[->|[->|[->|[->|[->|[]]]]]]]];
      by rw /handleKeyDown decide_False.
Qed.

Lemma assign_paused_back el b :
  assign_paused (Dom.paused el) (assign_paused b el) = el.
Proof. by destruct el. Qed.


Lemma merge_muted_twice (s : PlayerSettings) :
  merge_settings
    (merge_settings s
       {| volume' := None; playbackRate' := None;
          isMuted' := Some (negb (isMuted s));
          isTheaterMode' := None; quality' := None |})
    {| volume' := None; playbackRate' := None;
       isMuted' := Some (negb (negb (isMuted s)));
       isTheaterMode' := None; quality' := None |}
  = s.
Proof. destruct s as [v r m th q]. by rw /merge_settings /= negb_involutive. Qed.

(** X18. [toggleMute] flips the mute preference and nothing else: volume,
    rate and catalog stay, and a second toggle restores the settings.
    The settings effect then brings the element in line with the
    preferences, mute and volume apart. *)
Theorem toggleMute_twice a el :
  isMuted (settings (store (toggleMute a)))
  = negb (isMuted (settings (store a)))
  ∧ volume (settings (store (toggleMute a))) = volume (settings (store a))
  ∧ playbackRate (settings (store (toggleMute a)))
    = playbackRate (settings (store a))
  ∧ videos (store (toggleMute a)) = videos (store a)
  ∧ currentVideoId (store (toggleMute a)) = currentVideoId (store a)
  ∧ settings (store (toggleMute (toggleMute a))) = settings (store a)
  ∧ (videoRef a = Some el →
     ∃ el', videoRef (apply_settings (toggleMute a)) = Some el'
            ∧ Dom.muted el' = negb (isMuted (settings (store a)))
            ∧ Dom.volume el' = volume (settings (store a))
            ∧ Dom.playbackRate el' = playbackRate (settings (store a))
            ∧ Dom.currentTime el' = Dom.currentTime el
            ∧ Dom.paused el' = Dom.paused el
            ∧ Dom.listeners el' = Dom.listeners el).
Proof.
  split_and!; try done.
  - apply merge_muted_twice.
  - intros Hel. rw /apply_settings /toggleMute /= Hel. by eexists.
Qed.


End controls.

(** * Timers: the skip cue and the controls that hide *)

Section timing.
#[local] Open Scope float_scope.
Import Player.
Implicit Types (a : App) (el : Dom.HTMLVideoElement) (t : Timer)
  (due : list Timer) (ms d : Z).

Lemma run_callbacks_frame due a :
  let a' := foldl (λ s t, run_callback (callback t) s) a due in
  timers a' = timers a ∧ next_timer a' = next_timer a
  ∧ controlsTimeoutRef a' = controlsTimeoutRef a
  ∧ isPlaying (ui a') = isPlaying (ui a).
Proof.
  revert a. induction due as [|t due IH]; intros a; [done|].
  simpl. destruct (IH (run_callback (callback t) a)) as (-> & -> & -> & ->).
  by destruct (callback t) as [[]|].
Qed.

Lemma run_callbacks_cue due a :
  Forall (λ t, callback t ≠ clear_skipFeedback) due →
  skipFeedback (ui (foldl (λ s t, run_callback (callback t) s) a due))
  = skipFeedback (ui a).
Proof.
  intros H. revert a. induction H as [|t due Ht H IH]; intros a; [done|].
  rw /= IH. by destruct (callback t) as [[]|].
Qed.

Lemma run_callbacks_controls due a :
  Forall (λ t, callback t = clear_skipFeedback) due →
  showControls (ui (foldl (λ s t, run_callback (callback t) s) a due))
  = showControls (ui a).
Proof.
  intros H. revert a. induction H as [|t due Ht H IH]; intros a; [done|].
  by rw /= IH Ht.
Qed.

Lemma elapse_timers ms a :
  timers (elapse ms a)
  = (λ t, {| timer := timer t; remaining := (remaining t - ms)%Z;
             callback := callback t |})
      <$> filter (λ t, ¬ (remaining t ≤ ms)%Z) (timers a)
  ∧ next_timer (elapse ms a) = next_timer a
  ∧ controlsTimeoutRef (elapse ms a) = controlsTimeoutRef a
  ∧ isPlaying (ui (elapse ms a)) = isPlaying (ui a).
Proof.
  rw /elapse.
  by destruct (run_callbacks_frame
                 (filter (λ t, (remaining t ≤ ms)%Z) (timers a))
                 (with_timers
                    ((λ t, {| timer := timer t;
                              remaining := (remaining t - ms)%Z;
                              callback := callback t |})
                       <$> filter (λ t, ¬ (remaining t ≤ ms)%Z) (timers a))
                    (next_timer a) a)) as (-> & -> & -> & ->).
Qed.

Lemma seek_timers amount a el :
  videoRef a = Some el →
  timers (seek amount a)
  = timers a ++ [{| timer := next_timer a; remaining := 500;
                    callback := clear_skipFeedback |}]
  ∧ controlsTimeoutRef (seek amount a) = controlsTimeoutRef a.
Proof. intros Hel. by rw /seek Hel. Qed.

(** What [elapse] leaves of the cue when the last timer to come due is
    the timer of a cue, and when no timer of a cue comes due. *)
Lemma elapse_clears ms a ts t rest :
  timers a = ts ++ t :: rest → callback t = clear_skipFeedback →
  (remaining t ≤ ms)%Z → Forall (λ t, ¬ (remaining t ≤ ms)%Z) rest →
  skipFeedback (ui (elapse ms a)) = None.
Proof.
  intros Hts Hcb Hdue Hrest.
  assert (filter (λ t, (remaining t ≤ ms)%Z) rest = []) as Hnone.
  { clear Hts. induction Hrest as [|t' rest Ht' H IH]; [done|].
    by rw filter_cons_False. }
  rw /elapse Hts !filter_app !filter_cons Hnone.
  repeat case_decide; try done.
  by rw foldl_app /= Hcb.
Qed.

Lemma elapse_keeps ms a :
  Forall (λ t, callback t = clear_skipFeedback → ¬ (remaining t ≤ ms)%Z)
         (timers a) →
  skipFeedback (ui (elapse ms a)) = skipFeedback (ui a).
Proof.
  intros H. rw /elapse run_callbacks_cue //.
  apply Forall_forall. intros t [Hdue Ht]%list_elem_of_filter Hcb.
  by apply (proj1 (Forall_forall _ _) H t Ht).
Qed.

(** X20. A seek shows the skip cue on the side of its direction and sets
    a timer of 500 ms that clears it; no seek cancels the timer of an
    earlier one.  With no cue pending before, the cue stays for any
    shorter wait and is gone after 500 ms; but when a second seek comes
    [d] ms after the first, its cue is cleared by the first timer, only
    [500 - d] ms after it was shown, while its own timer is still
    pending. *)
Theorem seek_cue amount amount' d a el :
  videoRef a = Some el →
  Forall (λ t, callback t ≠ clear_skipFeedback) (timers a) →
  (0 < d < 500)%Z →
  skipFeedback (ui (seek amount a))
  = Some (if amount <? 0 then left else right)
  ∧ skipFeedback (ui (elapse d (seek amount a)))
    = Some (if amount <? 0 then left else right)
  ∧ (∀ ms, (500 ≤ ms)%Z →
       skipFeedback (ui (elapse ms (seek amount a))) = None)
  ∧ let a1 := seek amount' (elapse d (seek amount a)) in
    skipFeedback (ui a1) = Some (if amount' <? 0 then left else right)
    ∧ skipFeedback (ui (elapse (500 - d) a1)) = None
    ∧ last (timers (elapse (500 - d) a1))
      = Some {| timer := S (next_timer a); remaining := d;
                callback := clear_skipFeedback |}.
Proof.
  intros Hel Hts Hd.
  destruct (seek_spec amount a el Hel) as (_ & Hv & Hcue & _).
  destruct (seek_timers amount a el Hel) as [Ht _].
  split; [done|]. split.
  { rw elapse_keeps // Ht. apply Forall_app. split.
    - eapply Forall_impl; [exact Hts|]. by intros t H1 H2.
    - apply Forall_singleton. simpl. lia. }
  split.
  { intros ms Hms. by eapply (elapse_clears _ _ _ _ []). }
  destruct (elapse_quiet d (seek amount a)) as (_ & Hv1 & _).
  rw Hv in Hv1.
  destruct (elapse_timers d (seek amount a)) as (Ht1 & Hn1 & _).
  rw Ht filter_app fmap_app filter_cons filter_nil decide_True /= in Ht1;
    [|lia].
  destruct (seek_spec amount' _ _ Hv1) as (_ & _ & Hcue' & _).
  destruct (seek_timers amount' _ _ Hv1) as [Ht2 _].
  rw Ht1 Hn1 in Ht2.
  assert (next_timer (seek amount a) = S (next_timer a)) as Hn
    by by rw /seek Hel.
  rw Hn in Ht2.
  intros a1. subst a1. split; [done|]. split.
  - rw -app_assoc /= in Ht2.
    eapply elapse_clears; [exact Ht2|done|simpl; lia|].
    apply Forall_singleton. simpl. lia.
  - destruct (elapse_timers (500 - d) (seek amount' (elapse d (seek amount a))))
      as (-> & _).
    rw Ht2 !filter_app !filter_cons !filter_nil.
    repeat case_decide; simpl in *; try lia.
    rw fmap_app /= last_snoc.
    do 2 f_equal. lia.
Qed.

Lemma tracked_elapse ms a : tracked a → tracked (elapse ms a).
Proof.
  intros H t. destruct (elapse_timers ms a) as (-> & _ & -> & _).
  intros (t' & -> & [_ Ht']%list_elem_of_filter)%list_elem_of_fmap.
  simpl. by apply H.
Qed.

Lemma tracked_seek amount a : tracked a → tracked (seek amount a).
Proof.
  intros H. destruct (videoRef a) as [el|] eqn:Hel; [|by rw /seek Hel].
  destruct (seek_timers amount a el Hel) as [Ht Hc].
  intros t. rw Ht Hc elem_of_app list_elem_of_singleton.
  intros [Hin| ->]; [by apply H|done].
Qed.

(** X21. Moving the pointer shows the controls and leaves exactly one
    auto-hide timer pending, whatever the number of moves before: the
    timer the last move left is cancelled.  For the next 3 s the controls
    stay; then they hide if and only if the player showed as playing
    when the pointer moved, even if playback has started or stopped
    since. *)
Theorem handleMouseMove_autohide a ms l b w :
  tracked a →
  let a1 := handleMouseMove a in
  showControls (ui a1) = true
  ∧ filter (λ t, callback t ≠ clear_skipFeedback) (timers a1)
    = [{| timer := next_timer a; remaining := 3000;
          callback := hide_controls_if (isPlaying (ui a)) |}]
  ∧ controlsTimeoutRef a1 = Some (next_timer a)
  ∧ tracked a1
  ∧ ((0 ≤ ms < 3000)%Z → showControls (ui (elapse ms a1)) = true)
  ∧ ((3000 ≤ ms)%Z →
     showControls (ui (elapse ms a1)) = negb (isPlaying (ui a)))
  ∧ (body l = arrow_setIsPlaying b → (3000 ≤ ms)%Z →
     showControls (ui (elapse ms (run_listener l a1 w).1))
     = negb (isPlaying (ui a))).
Proof.
  intros Htr a1.
  set (new := {| timer := next_timer a; remaining := 3000;
                 callback := hide_controls_if (isPlaying (ui a)) |}).
  assert (∃ cues, timers a1 = cues ++ [new]
                  ∧ Forall (λ t, callback t = clear_skipFeedback) cues)
    as (cues & Ht & Hcues).
  { subst a1. rw /handleMouseMove /=.
    destruct (controlsTimeoutRef a) as [i|] eqn:Hi; simpl.
    - eexists. split; [reflexivity|].
      apply Forall_forall. intros t [Hne Ht]%list_elem_of_filter.
      destruct (decide (callback t = clear_skipFeedback)) as [|Hcb]; [done|].
      specialize (Htr t Ht Hcb). rw Hi in Htr. by injection Htr as ->.
    - eexists. split; [reflexivity|].
      apply Forall_forall. intros t Ht.
      destruct (decide (callback t = clear_skipFeedback)) as [|Hcb]; [done|].
      specialize (Htr t Ht Hcb). by rw Hi in Htr. }
  assert (Hfil : filter (λ t, callback t ≠ clear_skipFeedback) cues = []).
  { clear Ht. induction Hcues as [|t cues Hcb H IH]; [done|].
    rw filter_cons_False; [done|]. by intros Hne. }
  destruct (handleMouseMove_spec a) as (_ & _ & Hshow & _).
  assert (Href : controlsTimeoutRef a1 = Some (next_timer a)).
  { subst a1. rw /handleMouseMove /=. by destruct (controlsTimeoutRef a). }
  assert (Hlate : ∀ a2, timers a2 = cues ++ [new] → (3000 ≤ ms)%Z →
            showControls (ui a2) = true →
            showControls (ui (elapse ms a2)) = negb (isPlaying (ui a))).
  { intros a2 Ht2 Hms Hs2.
    rw /elapse Ht2 !filter_app !filter_cons !filter_nil.
    repeat case_decide; simpl in *; try lia.
    rw foldl_app /=. destruct (isPlaying (ui a)); [done|].
    rw /= run_callbacks_controls //. by apply Forall_filter_keep. }
  split_and!; try done.
  - rw Ht filter_app Hfil. by rw filter_cons_True.
  - intros t. rw Ht Href elem_of_app list_elem_of_singleton.
    intros [Hin| ->] Hcb; [|done].
    by destruct (proj1 (Forall_forall _ _) Hcues t Hin).
  - intros Hms.
    rw /elapse Ht !filter_app !filter_cons !filter_nil.
    repeat case_decide; simpl in *; try lia.
    rw app_nil_r run_callbacks_controls //.
    by apply Forall_filter_keep.
  - intros Hms. by apply Hlate.
  - intros Hb Hms. apply Hlate; [|done|]; by rw /run_listener Hb.
Qed.

End timing.

(** * The media events, after any number of bindings *)

Section events.
#[local] Open Scope float_scope.
Import Player.
Implicit Types (a : App) (el : Dom.HTMLVideoElement) (l : Listener)
  (ty : EventName) (video v : VideoItem) (w : World).

Lemma filter_stale_keep ty k (ls : list (EventName * Listener)) :
  Forall stale ls → ty ≠ play → ty ≠ pause →
  filter (λ r, ¬ (r.1 = ty ∧ fn r.2 = k)) ls = ls.
Proof.
  intros H H1 H2. induction H as [|r ls Hr H IH]; [done|].
  rw filter_cons_True; [by rw IH|].
  intros [Hty _]. destruct Hr as [[Hr _]|[Hr _]]; congruence.
Qed.

Lemma filter_stale_none ty (ls : list (EventName * Listener)) :
  Forall stale ls → ty ≠ play → ty ≠ pause →
  filter (λ r, r.1 = ty) ls = [].
Proof.
  intros H H1 H2. induction H as [|r ls Hr H IH]; [done|].
  rw filter_cons_False; [done|].
  intros Hty. destruct Hr as [[Hr _]|[Hr _]]; congruence.
Qed.

Lemma filter_stale_arrows (b : bool) (ls : list (EventName * Listener)) :
  Forall stale ls →
  Forall (λ l, body l = arrow_setIsPlaying b)
         (snd <$> filter (λ r, r.1 = if b then play else pause) ls).
Proof.
  intros H. induction H as [|r ls Hr H IH]; [constructor|].
  destruct (decide (r.1 = if b then play else pause)) as [Hty|Hty].
  - rw filter_cons_True // fmap_cons. constructor; [|done].
    destruct Hr as [[Hr ->]|[Hr ->]], b; congruence.
  - by rw filter_cons_False.
Qed.

(** What the cleanup leaves of a binding. *)
Lemma unbind_bound_to v a :
  bound_to v a →
  Forall stale (listeners_of (unbind a))
  ∧ is_Some (videoRef (unbind a))
  ∧ fresh (unbind a)
  ∧ (∀ el, videoRef a = Some el →
       ∃ el', videoRef (unbind a) = Some el' ∧ Dom.src el' = Dom.src el)
  ∧ ui (unbind a) = ui a.
Proof.
  intros (older & n & Hl & Hst & [el Hel] & Hc & Hf).
  split_and!.
  - rw /listeners_of Hel in Hl.
    rw /unbind Hc Hel /listeners_of /= Hl /handlers !filter_app.
    rw !(filter_stale_keep _ _ older) //.
    repeat first
      [ rw filter_nil
      | rw filter_cons_True;
          [|simpl; intros [H1 H2]; (discriminate H1 || lia)]
      | rw filter_cons_False;
          [|simpl; intros H; apply H; split; [done|lia]] ].
    apply Forall_app. split; [done|].
    repeat constructor; by [left|right].
  - apply unbind_videoRef. by eexists.
  - by apply unbind_fresh.
  - intros el0 Hel0. rw /unbind Hc Hel0 /=. by eexists.
  - by rw /unbind Hc Hel.
Qed.

Lemma bind_bound_to v a :
  is_Some (videoRef a) → fresh a → Forall stale (listeners_of a) →
  source v ≠ "" → bound_to v (bind v a).
Proof.
  intros [el Hel] Hf Hst Hsrc.
  exists (Dom.listeners el), (next_fn a). split_and!.
  - by rw (bind_listeners v a el).
  - by rw /listeners_of Hel in Hst.
  - apply bind_videoRef. by eexists.
  - by rw /bind Hel decide_False.
  - by apply bind_fresh.
Qed.

Lemma rebind_bound_to v v' a :
  bound_to v a → source v' ≠ "" → bound_to v' (rebind v' a).
Proof.
  intros (Hst & Hel & Hf & _)%unbind_bound_to Hsrc.
  by apply bind_bound_to.
Qed.

(** X22. However many items the player has been bound to since it was
    mounted, it is bound to the last one: the element holds the three
    named handlers of that binding and of no other, and the
    subscriptions that earlier bindings left behind are [play] and
    [pause] arrows only. *)
Theorem rebinds_bound_to v vs s d rect :
  Forall (λ u, source u ≠ "") (v :: vs) →
  bound_to (List.last vs v) (rebinds vs (bind v (mount s d rect))).
Proof.
  intros [Hv Hvs]%Forall_cons.
  assert (bound_to v (bind v (mount s d rect))) as Hb.
  { apply bind_bound_to; [by eexists|constructor|constructor|done]. }
  revert Hb. generalize (bind v (mount s d rect)). revert v Hv.
  induction Hvs as [|u vs Hu Hvs IH]; intros v Hv a Hb; [done|].
  change (rebinds (u :: vs) a) with (rebinds vs (rebind u a)).
  assert (List.last (u :: vs) v = List.last vs u) as ->.
  { clear. revert u v. induction vs as [|x vs IH]; intros u v; [done|].
    change (List.last (x :: vs) v = List.last (x :: vs) u). by rw !IH. }
  apply IH; [done|]. by eapply rebind_bound_to.
Qed.

Lemma run_arrows (b : bool) (ls : list Listener) a w :
  Forall (λ l, body l = arrow_setIsPlaying b) ls → ls ≠ [] →
  run_listeners ls a w = (with_ui (setIsPlaying b (ui a)) a, w).
Proof.
  intros H. revert a. induction H as [|l ls Hl H IH]; intros a Hne; [done|].
  rw /= /mbind /M_bind /run_listener Hl /= /mret /M_ret.
  destruct ls as [|l' ls]; [done|]. by rw IH.
Qed.

(** X23. A [timeupdate] of the element writes the position of the media
    once, into the progress of the item the player is bound to and of no
    other, whatever was bound before; the element is not touched. *)
Theorem fire_timeupdate_bound v a el w :
  bound_to v a → videoRef a = Some el →
  let r := fire timeupdate a w in
  let p := updateVideoProgress (id v) (Dom.currentTime el) (store a) w in
  store r.1 = p.1 ∧ r.2 = p.2
  ∧ currentTime (ui r.1) = Dom.currentTime el
  ∧ videoRef r.1 = Some el ∧ calls r.1 = calls a
  ∧ (∀ k u, videos (store a) !! k = Some u → id u ≠ id v →
       videos (store r.1) !! k = Some u).
Proof.
  intros (older & n & Hl & Hst & _ & _ & _) Hel r p. subst r p.
  rw /listeners_of Hel in Hl.
  rw /fire Hel Hl filter_app filter_stale_none //= /run_listener /= Hel.
  pose proof (stamp_mapM_spec (id v) (Dom.currentTime el)
                (videos (store a)) w) as (_ & _ & _ & Hk).
  rw /updateVideoProgress /mbind /M_bind /=.
  destruct (last (Dom.buffered el)) as [r0|]; simpl;
    destruct (mapM _ (videos (store a)) w) as [vs w1] eqn:E; simpl in *;
    (split_and!; try done);
    intros k u Hu Hne; destruct (Hk k u Hu) as [H1 _]; by apply H1.
Qed.

(** X24. A [play] event shows the player as playing and a [pause] event
    as paused, and neither does anything else, although the arrows of
    every earlier binding run as well. *)
Theorem fire_play_pause v a w :
  bound_to v a →
  fire play a w = (with_ui (setIsPlaying true (ui a)) a, w)
  ∧ fire pause a w = (with_ui (setIsPlaying false (ui a)) a, w).
Proof.
  intros (older & n & Hl & Hst & [el Hel] & _ & _).
  rw /listeners_of Hel in Hl.
  rw /fire Hel Hl !filter_app !fmap_app. split.
  - apply (run_arrows true).
    + apply Forall_app. split; [by apply (filter_stale_arrows true)|].
      by repeat constructor.
    + by intros [_ [=]]%app_eq_nil.
  - apply (run_arrows false).
    + apply Forall_app. split; [by apply (filter_stale_arrows false)|].
      by repeat constructor.
    + by intros [_ [=]]%app_eq_nil.
Qed.

(** X25. An [error] event raises the error flag and does nothing else.
    The flag is lowered by the next binding to an item with a source,
    and by nothing else a binding does: a binding to an item without a
    source leaves it up. *)
Theorem fire_error_bound v v' a w :
  bound_to v a →
  let a1 := (fire error a w).1 in
  a1 = with_ui (setLoadError true (ui a)) a
  ∧ (fire error a w).2 = w
  ∧ bound_to v a1
  ∧ (source v' ≠ "" → loadError (ui (rebind v' a1)) = false)
  ∧ (source v' = "" → loadError (ui (rebind v' a1)) = true).
Proof.
  intros Hb a1.
  assert (fire error a w = (with_ui (setLoadError true (ui a)) a, w)) as He.
  { destruct Hb as (older & n & Hl & Hst & [el Hel] & _ & _).
    rw /listeners_of Hel in Hl.
    by rw /fire Hel Hl filter_app filter_stale_none. }
  subst a1. rw He /=.
  assert (bound_to v (with_ui (setLoadError true (ui a)) a)) as Hb1 by done.
  destruct (unbind_bound_to _ _ Hb1) as (_ & [el' Hel'] & _ & _ & Hui).
  split_and!; try done.
  - intros Hsrc. by rw /rebind /bind Hel' decide_False.
  - intros Hsrc. by rw /rebind /bind Hel' decide_True //= Hui.
Qed.

(** X26. When the metadata of the media has loaded the duration is
    shown, and playback resumes at the progress the item had when the
    player was bound to it, if that is a number other than zero;
    otherwise the position is left alone. *)
Theorem fire_loadedmetadata_bound v a el w :
  bound_to v a → videoRef a = Some el →
  let r := fire loadedmetadata a w in
  r.2 = w
  ∧ duration (ui r.1) = Dom.duration el
  ∧ store r.1 = store a
  ∧ (∀ p, progress v = Some p → truthy (Some p) = true →
       calls r.1 = calls a ++ [video_set_currentTime p]
       ∧ videoRef r.1 = Some (assign_currentTime p el))
  ∧ (truthy (progress v) = false →
       calls r.1 = calls a ∧ videoRef r.1 = Some el).
Proof.
  intros (older & n & Hl & Hst & _ & _ & _) Hel r. subst r.
  rw /listeners_of Hel in Hl.
  rw /fire Hel Hl filter_app filter_stale_none //= /run_listener /= Hel.
  rw /mbind /M_bind /= /mret /M_ret /=.
  split_and!; try done.
  - by destruct (truthy (progress v)).
  - by destruct (truthy (progress v)).
  - intros p Hp Ht. rw Hp. rw /= in Ht. by rw /= Ht.
  - by intros ->.
Qed.

(** X27. A binding to an item without a source (a local item read back
    from the saved state has none) tears the last binding down and sets
    nothing up: the element keeps the media of the item before, its
    [timeupdate] events are no longer heard, and no progress is written. *)
Theorem rebind_without_source v v' a el w :
  bound_to v a → videoRef a = Some el → source v' = "" →
  let a1 := rebind v' a in
  (∃ el', videoRef a1 = Some el' ∧ Dom.src el' = Dom.src el)
  ∧ Forall stale (listeners_of a1)
  ∧ cleanup a1 = None
  ∧ ui a1 = ui a ∧ store a1 = store a
  ∧ fire timeupdate a1 w = (a1, w).
Proof.
  intros Hb Hel Hsrc a1.
  destruct (unbind_bound_to _ _ Hb) as (Hst & _ & _ & Hsame & Hui).
  destruct (Hsame el Hel) as (el' & Hel' & Hs).
  assert (a1 = with_effect (next_fn (unbind a)) None (unbind a)) as Ha1.
  { subst a1. by rw /rebind /bind Hel' decide_True. }
  clearbody a1. subst a1. split_and!.
  - by exists el'.
  - done.
  - done.
  - done.
  - rw /= /unbind. by destruct (cleanup a), (videoRef a).
  - rw /listeners_of Hel' in Hst.
    by rw /fire /= Hel' filter_stale_none.
Qed.

End events.

(** * The caption input *)

Section captions.
Import Player Captions.

Lemma unbind_subtitleUrl (a : App) :
  subtitleUrl (ui (unbind a)) = subtitleUrl (ui a).
Proof. rw /unbind. by destruct (cleanup a), (videoRef a). Qed.

Lemma bind_subtitleUrl v (a : App) :
  subtitleUrl (ui (bind v a)) = subtitleUrl (ui a).
Proof. rw /bind. destruct (videoRef a); [case_decide|]; done. Qed.

(** X28. Choosing a caption file mints one object URL and shows it;
    a choice that was cancelled changes nothing.  Nothing is ever
    revoked: a second file replaces the URL of the first, which stays
    allocated.  The caption chosen for one item is still on when the
    player is bound to the next. *)
Theorem handleSubtitleUpload_kept file file' v (a : App) w :
  let r := handleSubtitleUpload (Some file) a w in
  let r' := handleSubtitleUpload (Some file') r.1 r.2 in
  subtitleUrl (ui r.1) = Some (objectURL w (blobs w))
  ∧ blobs r.2 = S (blobs w) ∧ revoked r.2 = revoked w
  ∧ store r.1 = store a ∧ videoRef r.1 = videoRef a
  ∧ handleSubtitleUpload None a w = (a, w)
  ∧ subtitleUrl (ui r'.1) = Some (objectURL w (S (blobs w)))
  ∧ blobs r'.2 = S (S (blobs w)) ∧ revoked r'.2 = revoked w
  ∧ subtitleUrl (ui (rebind v r.1)) = Some (objectURL w (blobs w)).
Proof.
  split_and!; try done.
  rw /rebind bind_subtitleUrl unbind_subtitleUrl //.
Qed.

End captions.

(** * The further theorems at work on sample data *)

Section more_samples.
#[local] Open Scope float_scope.
Import Samples.

(** X1 on a run that adds, plays, flags and removes. *)
Lemma run_keeps_tidy_witness :
  tidy (run [AddVideo a; AddVideo b; UpdateVideoProgress "a" 3;
             ToggleFavorite "b"; AddVideo a; RemoveVideo "b"]
          (initial, []) world).1.1.
Proof.
  apply (run_keeps_tidy _ initial [] world).
  split; [simpl; lia|constructor].
Defined.

(** X9 on the catalog [b; a]: a tick on [a] puts it on top. *)
Lemma progress_heads_history_witness :
  head (AppView.displayVideos AppView.recent ""
          (videos (updateVideoProgress "a" 12.5
                     (addVideo b (addVideo a initial)) world).1))
  = Some (with_progress 12.5 1000 a).
Proof.
  apply (progress_heads_history (addVideo b (addVideo a initial)) "a" 12.5
           world 1 a).
  - apply (bool_decide_unpack _). by vm_compute.
  - reflexivity.
  - reflexivity.
  - apply Forall_forall. repeat constructor.
Defined.

(** X11 on a file of noise. *)
Lemma import_undecodable_witness :
  ∃ st' v,
    (Uploader.import 1 noise initial world).1 = Some st'
    ∧ head (videos st') = Some v
    ∧ id v = "a-uuid"
    ∧ thumbnail v = Some ""
    ∧ metadata v
      = Some {| duration := 0; width := 0; height := 0;
                format := Some "bin"; size := Some 7 |}
    ∧ source v = "1.blob"
    ∧ addedAt v = 1000%Z.
Proof.
  exact (import_undecodable 1 noise initial world eq_refl eq_refl).
Defined.

(** X12 on a batch of two files. *)
Lemma handleLocalUpload_batch_witness :
  ids (videos (Uploader.store
         (Uploader.handleLocalUpload [movie; noise]
            {| Uploader.isLoading := false; Uploader.store := initial |}
            world).1))
  = ["b-uuid"; "a-uuid"].
Proof.
  destruct (handleLocalUpload_batch [movie; noise]
              {| Uploader.isLoading := false; Uploader.store := initial |}
              world) as (H & _).
  - reflexivity.
  - reflexivity.
  - discriminate.
  - apply (bool_decide_unpack _). by vm_compute.
  - exact H.
Defined.


(** X20: two seeks 200 ms apart; 300 ms later the cue is gone. *)
Lemma seek_cue_witness :
  Player.skipFeedback
    (Player.ui
       (Player.elapse 300
          (Player.seek 10 (Player.elapse 200 (Player.seek (-10) bound)))))
  = None.
Proof.
  destruct (seek_cue (-10) 10 200 bound (element bound))
    as (_ & _ & _ & _ & H & _).
  - by vm_compute.
  - constructor.
  - lia.
  - exact H.
Defined.

(** X21: the pointer moves over the player, which does not show as
    playing: the controls stay. *)
Lemma handleMouseMove_autohide_witness :
  Player.showControls
    (Player.ui (Player.elapse 3000 (Player.handleMouseMove bound))) = true.
Proof.
  destruct (handleMouseMove_autohide bound 3000
              {| Player.fn := 0; Player.body := Player.handleError |}
              true world)
    as (_ & _ & _ & _ & _ & H & _).
  - intros t Ht. by apply elem_of_nil in Ht.
  - apply H. lia.
Defined.

(** X22: bound to [a], then to [b], then to [a] again. *)
Lemma rebinds_bound_to_witness :
  bound_to a (Player.rebinds [b; a] bound).
Proof.
  apply (rebinds_bound_to a [b; a] (addVideo a initial) document rect).
  by repeat constructor.
Defined.

Lemma bound_bound_to : bound_to a bound.
Proof.
  apply bind_bound_to; [by eexists|constructor|constructor|done].
Qed.

Lemma rebound_bound_to : bound_to b (Player.rebind b bound).
Proof. apply (rebind_bound_to a); [exact bound_bound_to|done]. Qed.

(** X23: after the change from [a] to [b], a [timeupdate] leaves the
    entry of [a] alone. *)
Lemma fire_timeupdate_bound_witness :
  videos (Player.store
            (Player.fire Player.timeupdate (Player.rebind b bound) world).1)
    !! 0%nat
  = Some a.
Proof.
  destruct (fire_timeupdate_bound b (Player.rebind b bound)
              (element (Player.rebind b bound)) world)
    as (_ & _ & _ & _ & _ & H).
  - exact rebound_bound_to.
  - by vm_compute.
  - apply H; by vm_compute.
Defined.

(** X24: a [play] event after the change from [a] to [b]. *)
Lemma fire_play_pause_witness :
  Player.isPlaying
    (Player.ui (Player.fire Player.play (Player.rebind b bound) world).1)
  = true.
Proof.
  destruct (fire_play_pause b (Player.rebind b bound) world) as [H _].
  - exact rebound_bound_to.
  - by rw H.
Defined.

(** X25: the media of [a] fails to load; the change to [b] lowers the
    flag. *)
Lemma fire_error_bound_witness :
  Player.loadError
    (Player.ui
       (Player.rebind b (Player.fire Player.error bound world).1))
  = false.
Proof.
  destruct (fire_error_bound a b bound world) as (_ & _ & _ & H & _).
  - exact bound_bound_to.
  - apply H. discriminate.
Defined.

(** X26: [a] has no progress: the position is left alone. *)
Lemma fire_loadedmetadata_bound_witness :
  Player.calls (Player.fire Player.loadedmetadata bound world).1 = [].
Proof.
  destruct (fire_loadedmetadata_bound a bound (element bound) world)
    as (_ & _ & _ & _ & H).
  - exact bound_bound_to.
  - by vm_compute.
  - destruct H as [H _]; [by vm_compute|exact H].
Defined.

(** X27: from [a] to what the saved state holds of it. *)
Lemma rebind_without_source_witness :
  Player.fire Player.timeupdate
    (Player.rebind (with_source "" a) bound) world
  = (Player.rebind (with_source "" a) bound, world).
Proof.
  destruct (rebind_without_source a (with_source "" a) bound
              (element bound) world)
    as (_ & _ & _ & _ & _ & H).
  - exact bound_bound_to.
  - by vm_compute.
  - reflexivity.
  - exact H.
Defined.

End more_samples.
